(** * soup: a query layer over a parsed HTML tree

    A shallow embedding of [soup.go] (package [soup]) and the properties of
    its search, navigation and text-extraction functions.

    - A Go [string] is a sequence of bytes: Rocq's [string].
    - A run-time panic (index out of range, nil dereference) is the
      [Panic] outcome of the [outcome] monad.
    - The tree built by [html.Parse] is an ordered rooted tree. A non-nil
      [*html.Node] is a position in that tree: the subtree below it together
      with what lies around it, so that [FirstChild], [NextSibling] and
      [PrevSibling] are functions on pointers, as the fields are in Go.
    - [map[string]string] is a [gmap string string]; the nil map is [None].
    - The functions that fetch a document ([Get], [GetWithClient]), the
      header and cookie settings and the parser [html.Parse] are outside
      this development: it starts from a tree already built, and
      [HTMLParse] takes what the parser returns as a parameter. *)

From Stdlib Require Import ZArith Ascii String List Bool Lia.
From stdpp Require Import base option list strings gmap.

Open Scope string_scope.
Open Scope list_scope.

(** ** Outcomes: a value, or a run-time panic *)

Inductive outcome (A : Type) : Type :=
| Ret (a : A)
| Panic.
Arguments Ret {A} a.
Arguments Panic {A}.

Definition bind {A B : Type} (m : outcome A) (k : A -> outcome B) : outcome B :=
  match m with
  | Ret a => k a
  | Panic => Panic
  end.

Notation "'let*' x := m 'in' k" := (bind m (fun x => k))
  (at level 10, x name, m at level 100, k at level 200).

(** [args[i]]: indexing a slice panics when [i] is out of range. *)
Definition index (args : list string) (i : nat) : outcome string :=
  match nth_error args i with
  | Some s => Ret s
  | None => Panic
  end.

(** ** The Go standard library: [unicode/utf8], [unicode], [strings] *)

Module utf8.

#[local] Open Scope Z_scope.

Definition byteZ (c : ascii) : Z := Z.of_N (N_of_ascii c).

Definition RuneError : Z := 0xFFFD.

Definition maskx : Z := 0x3F.
Definition mask2 : Z := 0x1F.
Definition mask3 : Z := 0x0F.
Definition mask4 : Z := 0x07.
Definition locb : Z := 0x80.
Definition hicb : Z := 0xBF.

(** Information about the first byte of an encoding. *)
Definition xx : Z := 0xF1.
Definition as_ : Z := 0xF0.
Definition s1 : Z := 0x02.
Definition s2 : Z := 0x13.
Definition s3 : Z := 0x03.
Definition s4 : Z := 0x23.
Definition s5 : Z := 0x34.
Definition s6 : Z := 0x04.
Definition s7 : Z := 0x44.

Definition first (b : Z) : Z :=
  if b <? 0x80 then as_
  else if b <? 0xC2 then xx
  else if b <? 0xE0 then s1
  else if b =? 0xE0 then s2
  else if b <? 0xED then s3
  else if b =? 0xED then s4
  else if b <? 0xF0 then s3
  else if b =? 0xF0 then s5
  else if b <? 0xF4 then s6
  else if b =? 0xF4 then s7
  else xx.

(** The range of valid values for the second byte. *)
Definition acceptRanges (i : Z) : Z * Z :=
  if i =? 0 then (locb, hicb)
  else if i =? 1 then (0xA0, hicb)
  else if i =? 2 then (locb, 0x9F)
  else if i =? 3 then (0x90, hicb)
  else if i =? 4 then (locb, 0x8F)
  else (0, 0).

(** [DecodeRuneInString s]: the first rune of [s] and its width in bytes;
    [(RuneError, 0)] on the empty string, [(RuneError, 1)] on an invalid
    encoding. *)
Definition DecodeRuneInString (s : string) : Z * nat :=
  match s with
  | EmptyString => (RuneError, 0%nat)
  | String c0 t0 =>
      let b0 := byteZ c0 in
      let x := first b0 in
      if as_ <=? x then
        ((if x =? as_ then b0 else RuneError), 1%nat)
      else
        let sz := Z.land x 7 in
        let '(lo, hi) := acceptRanges (Z.shiftr x 4) in
        match t0 with
        | EmptyString => (RuneError, 1%nat)
        | String c1 t1 =>
            let b1 := byteZ c1 in
            if (b1 <? lo) || (hi <? b1) then (RuneError, 1%nat)
            else if sz <=? 2 then
              (Z.lor (Z.shiftl (Z.land b0 mask2) 6) (Z.land b1 maskx), 2%nat)
            else
              match t1 with
              | EmptyString => (RuneError, 1%nat)
              | String c2 t2 =>
                  let b2 := byteZ c2 in
                  if (b2 <? locb) || (hicb <? b2) then (RuneError, 1%nat)
                  else if sz <=? 3 then
                    (Z.lor (Z.lor (Z.shiftl (Z.land b0 mask3) 12)
                                  (Z.shiftl (Z.land b1 maskx) 6))
                           (Z.land b2 maskx), 3%nat)
                  else
                    match t2 with
                    | EmptyString => (RuneError, 1%nat)
                    | String c3 _ =>
                        let b3 := byteZ c3 in
                        if (b3 <? locb) || (hicb <? b3) then (RuneError, 1%nat)
                        else
                          (Z.lor (Z.lor (Z.lor (Z.shiftl (Z.land b0 mask4) 18)
                                               (Z.shiftl (Z.land b1 maskx) 12))
                                        (Z.shiftl (Z.land b2 maskx) 6))
                                 (Z.land b3 maskx), 4%nat)
                    end
              end
        end
  end.

End utf8.

Module unicode.

#[local] Open Scope Z_scope.

(** [unicode.IsSpace]: the code points with the White_Space property. *)
Definition IsSpace (r : Z) : bool :=
  if r <=? 0xFF then
    (r =? 0x09) || (r =? 0x0A) || (r =? 0x0B) || (r =? 0x0C) || (r =? 0x0D)
    || (r =? 0x20) || (r =? 0x85) || (r =? 0xA0)
  else
    (r =? 0x1680) || ((0x2000 <=? r) && (r <=? 0x200A))
    || (r =? 0x2028) || (r =? 0x2029) || (r =? 0x202F) || (r =? 0x205F)
    || (r =? 0x3000).

End unicode.

Module strings.

(** [s[:n]] and [s[n:]] for [n <= len(s)]. *)
Fixpoint take (n : nat) (s : string) : string :=
  match n, s with
  | S n', String c s' => String c (take n' s')
  | _, _ => EmptyString
  end.

Fixpoint drop (n : nat) (s : string) : string :=
  match n, s with
  | S n', String _ s' => drop n' s'
  | _, _ => s
  end.

(** The field in progress, [s[start:end]] with [start >= 0], is [Some];
    [start < 0] is [None]. *)
Definition flush (cur : option string) : list string :=
  match cur with
  | Some w => [w]
  | None => []
  end.

(** The [range] loop of [FieldsFunc] over the runes of [s]. *)
Fixpoint fieldsLoop (fuel : nat) (f : Z -> bool) (s : string)
    (cur : option string) : list string :=
  match fuel with
  | O => flush cur
  | S fuel' =>
      match s with
      | EmptyString => flush cur
      | String _ _ =>
          let '(rune, w) := utf8.DecodeRuneInString s in
          if f rune then
            flush cur ++ fieldsLoop fuel' f (drop w s) None
          else
            fieldsLoop fuel' f (drop w s)
              (Some (default EmptyString cur +:+ take w s))
      end
  end.

Definition FieldsFunc (s : string) (f : Z -> bool) : list string :=
  fieldsLoop (String.length s) f s None.

(** [strings.Fields]: [s] split around each run of white space, as
    defined by [unicode.IsSpace]. *)
Definition Fields (s : string) : list string :=
  FieldsFunc s unicode.IsSpace.

(** [strings.Join]. *)
Fixpoint Join (elems : list string) (sep : string) : string :=
  match elems with
  | [] => EmptyString
  | [e] => e
  | e :: rest => e +:+ sep +:+ Join rest sep
  end.

End strings.

(** ** [golang.org/x/net/html]: nodes and attributes *)

Inductive NodeType : Type :=
| ErrorNode
| TextNode
| DocumentNode
| ElementNode
| CommentNode
| DoctypeNode.

Definition NodeType_eqb (a b : NodeType) : bool :=
  match a, b with
  | ErrorNode, ErrorNode | TextNode, TextNode | DocumentNode, DocumentNode
  | ElementNode, ElementNode | CommentNode, CommentNode
  | DoctypeNode, DoctypeNode => true
  | _, _ => false
  end.

Record Attribute : Type := mkAttr {
  Namespace : string;
  Key : string;
  Val : string
}.

(** ** The attribute matchers *)

Definition attributeAndValueEquals (attr : Attribute) (key val : string) : bool :=
  String.eqb (Key attr) key && String.eqb (Val attr) val.

(** The [for _, f := range fs] loop of [attributeContainsValue]. *)
Fixpoint containsField (fs : list string) (val : string) : bool :=
  match fs with
  | [] => false
  | f :: fs' => if String.eqb f val then true else containsField fs' val
  end.

Definition attributeContainsValue (attr : Attribute) (key val : string) : bool :=
  if negb (String.eqb (Key attr) key) then false
  else containsField (strings.Fields (Val attr)) val.


(** ** The document tree *)

(** An [html.Node] with the nodes below it: [Type], [Data], [Attr] and the
    children from [FirstChild] to [LastChild]. *)
#[local] Unset Elimination Schemes.
Inductive Node : Type :=
| mkNode (ty : NodeType) (data : string) (attr : list Attribute)
         (kids : list Node).
#[local] Set Elimination Schemes.

Definition nType (t : Node) : NodeType := let '(mkNode ty _ _ _) := t in ty.
Definition nData (t : Node) : string := let '(mkNode _ data _ _) := t in data.
Definition nAttr (t : Node) : list Attribute := let '(mkNode _ _ attr _) := t in attr.
Definition nKids (t : Node) : list Node := let '(mkNode _ _ _ kids) := t in kids.

(** What lies around a node: nothing for the root; otherwise the previous
    siblings (nearest first), the parent's own fields and surroundings, and
    the next siblings. *)
Inductive Ctx : Type :=
| Top
| Hole (before : list Node) (pType : NodeType) (pData : string)
       (pAttr : list Attribute) (up : Ctx) (after : list Node).

(** A non-nil [*html.Node]. *)
Record Ptr : Type := mkPtr {
  here : Node;
  around : Ctx
}.

Definition Type_ (n : Ptr) : NodeType := nType (here n).
Definition Data (n : Ptr) : string := nData (here n).
Definition Attr (n : Ptr) : list Attribute := nAttr (here n).

Definition NextSibling (n : Ptr) : option Ptr :=
  match around n with
  | Hole before ty data attr up (k :: after) =>
      Some (mkPtr k (Hole (here n :: before) ty data attr up after))
  | _ => None
  end.

Definition PrevSibling (n : Ptr) : option Ptr :=
  match around n with
  | Hole (k :: before) ty data attr up after =>
      Some (mkPtr k (Hole before ty data attr up (here n :: after)))
  | _ => None
  end.

Definition FirstChild (n : Ptr) : option Ptr :=
  match here n with
  | mkNode ty data attr (k :: kids) =>
      Some (mkPtr k (Hole [] ty data attr (around n) kids))
  | _ => None
  end.

Definition Parent (n : Ptr) : option Ptr :=
  match around n with
  | Hole before ty data attr up after =>
      Some (mkPtr (mkNode ty data attr (rev_append before (here n :: after))) up)
  | Top => None
  end.

(** The pointers [c, c.NextSibling, ...] visited by
    [for c := n.FirstChild; c != nil; c = c.NextSibling]. *)
Fixpoint siblingsFrom (before : list Node) (ty : NodeType) (data : string)
    (attr : list Attribute) (up : Ctx) (after : list Node) : list Ptr :=
  match after with
  | [] => []
  | k :: after' =>
      mkPtr k (Hole before ty data attr up after')
      :: siblingsFrom (k :: before) ty data attr up after'
  end.

Definition childPtrs (n : Ptr) : list Ptr :=
  let '(mkNode ty data attr kids) := here n in
  siblingsFrom [] ty data attr (around n) kids.

(** Depth of a pointer below the root of the document. *)
Fixpoint depth (c : Ctx) : nat :=
  match c with
  | Top => O
  | Hole _ _ _ _ up _ => S (depth up)
  end.

(** ** [Root] *)

Record Root : Type := mkRoot {
  Pointer : option Ptr;
  NodeValue : string;
  Error : option string
}.

Definition wrapNode (n : Ptr) : Root :=
  {| Pointer := Some n; NodeValue := Data n; Error := None |}.

Definition wrapErr (err : string) : Root :=
  {| Pointer := None; NodeValue := EmptyString; Error := Some err |}.

(** [wrapErrf] with the format already applied. *)
Definition wrapErrf (msg : string) : Root := wrapErr msg.

(** Dereferencing [r.Pointer]: nil panics. *)
Definition deref (p : option Ptr) : outcome Ptr :=
  match p with
  | Some n => Ret n
  | None => Panic
  end.

(** ** The search engine *)

Definition isElement (ty : NodeType) : bool := NodeType_eqb ty ElementNode.
Definition isText (ty : NodeType) : bool := NodeType_eqb ty TextNode.

(** The condition tested on one attribute inside both search loops. *)
Definition attrHit (attr : Attribute) (args : list string) (strict : bool)
    : outcome bool :=
  let* searchAttrName := index args 1 in
  let* searchAttrVal := index args 2 in
  Ret ((strict && attributeAndValueEquals attr searchAttrName searchAttrVal)
        || (negb strict && attributeContainsValue attr searchAttrName searchAttrVal)).

(** [findOnce], the loop over [n.Attr]: [true] when it returns [n, true]. *)
Fixpoint onceAttrs (attrs : list Attribute) (args : list string) (strict : bool)
    : outcome bool :=
  match attrs with
  | [] => Ret false
  | attr :: rest =>
      let* hit := attrHit attr args strict in
      if hit then Ret true else onceAttrs rest args strict
  end.

(** [findOnce], the block guarded by [uni == true]: [true] when it returns
    [n, true]. *)
Definition onceSelf (ty : NodeType) (data : string) (attrs : list Attribute)
    (args : list string) (uni strict : bool) : outcome bool :=
  if uni then
    if isElement ty then
      let* a0 := index args 0 in
      if String.eqb data a0 then
        if (1 <? length args)%nat && (length args <? 4)%nat then
          onceAttrs attrs args strict
        else if (length args =? 1)%nat then Ret true
        else Ret false
      else Ret false
    else Ret false
  else Ret false.

(** [findOnce] on the node [t] found at [c]; [(nil, false)] is [None]. *)
Fixpoint findOnceAt (t : Node) (c : Ctx) (args : list string)
    (uni strict : bool) {struct t} : outcome (option Ptr) :=
  let '(mkNode ty data attr kids) := t in
  let* hit := onceSelf ty data attr args uni strict in
  if hit then Ret (Some (mkPtr t c))
  else
    (fix children (before after : list Node) {struct after}
         : outcome (option Ptr) :=
       match after with
       | [] => Ret None
       | k :: after' =>
           let* pq := findOnceAt k (Hole before ty data attr c after') args true strict in
           match pq with
           | Some p => Ret (Some p)
           | None => children (k :: before) after'
           end
       end) [] kids.

Definition findOnce (n : Ptr) (args : list string) (uni strict : bool)
    : outcome (option Ptr) :=
  findOnceAt (here n) (around n) args uni strict.

(** [findAllofem], the loop over [n.Attr]: [nodeLinks] is threaded through. *)
Fixpoint allAttrs (n : Ptr) (attrs : list Attribute) (args : list string)
    (strict : bool) (nodeLinks : list Ptr) : outcome (list Ptr) :=
  match attrs with
  | [] => Ret nodeLinks
  | attr :: rest =>
      let* hit := attrHit attr args strict in
      allAttrs n rest args strict
        (if hit then nodeLinks ++ [n] else nodeLinks)
  end.

(** [findAllofem], the block guarded by [uni == true]. *)
Definition allSelf (n : Ptr) (args : list string) (uni strict : bool)
    (nodeLinks : list Ptr) : outcome (list Ptr) :=
  if uni then
    let* a0 := index args 0 in
    if String.eqb (Data n) a0 then
      if (1 <? length args)%nat && (length args <? 4)%nat then
        allAttrs n (Attr n) args strict nodeLinks
      else if (length args =? 1)%nat then Ret (nodeLinks ++ [n])
      else Ret nodeLinks
    else Ret nodeLinks
  else Ret nodeLinks.

(** The closure [f] of [findAllofem]; the captured slice [nodeLinks] is
    passed in and returned. *)
Fixpoint findAllAt (t : Node) (c : Ctx) (args : list string)
    (uni strict : bool) (nodeLinks : list Ptr) {struct t}
    : outcome (list Ptr) :=
  let '(mkNode ty data attr kids) := t in
  let* nodeLinks := allSelf (mkPtr t c) args uni strict nodeLinks in
  (fix children (before after : list Node) (nodeLinks : list Ptr)
       {struct after} : outcome (list Ptr) :=
     match after with
     | [] => Ret nodeLinks
     | k :: after' =>
         let* nodeLinks :=
           findAllAt k (Hole before ty data attr c after') args true strict nodeLinks in
         children (k :: before) after' nodeLinks
     end) [] kids nodeLinks.

Definition findAllofem (n : Ptr) (args : list string) (strict : bool)
    : outcome (list Ptr) :=
  findAllAt (here n) (around n) args false strict [].

(** ** The methods of [Root] *)

(** The error returned when [findOnce] reports no match. *)
Definition notFound (args : list string) : outcome Root :=
  let* a0 := index args 0 in
  Ret (wrapErrf ("element `" +:+ a0 +:+ "` with attributes `"
                 +:+ strings.Join (tail args) " " +:+ "` not found")).

Definition Find (r : Root) (args : list string) : outcome Root :=
  if (length args =? 0)%nat then Ret (wrapErrf "not enough arguments")
  else
    let* n := deref (Pointer r) in
    let* temp := findOnce n args false false in
    match temp with
    | None => notFound args
    | Some t => Ret (wrapNode t)
    end.

Definition FindStrict (r : Root) (args : list string) : outcome Root :=
  if (length args =? 0)%nat then Ret (wrapErrf "not enough arguments")
  else
    let* n := deref (Pointer r) in
    let* temp := findOnce n args false true in
    match temp with
    | None => notFound args
    | Some t => Ret (wrapNode t)
    end.

(** A [[]Root] is a list; the nil slice is the empty list. *)
Definition FindAll (r : Root) (args : list string) : outcome (list Root) :=
  let* n := deref (Pointer r) in
  let* temp := findAllofem n args false in
  if (length temp =? 0)%nat then Ret []
  else Ret (map wrapNode temp).

Definition FindAllStrict (r : Root) (args : list string) : outcome (list Root) :=
  let* n := deref (Pointer r) in
  let* temp := findAllofem n args true in
  if (length temp =? 0)%nat then Ret []
  else Ret (map wrapNode temp).

Definition FindNextSibling (r : Root) : outcome Root :=
  let* n := deref (Pointer r) in
  match NextSibling n with
  | None => Ret (wrapErrf "no next sibling found")
  | Some next => Ret (wrapNode next)
  end.

Definition FindPrevSibling (r : Root) : outcome Root :=
  let* n := deref (Pointer r) in
  match PrevSibling n with
  | None => Ret (wrapErrf "no previous sibling found")
  | Some prev => Ret (wrapNode prev)
  end.

(** [for k := ...NextSibling; k != nil; k = k.NextSibling]: the first
    element among the siblings [after], to the right of [before]. *)
Fixpoint nextElementFrom (before : list Node) (ty : NodeType) (data : string)
    (attr : list Attribute) (up : Ctx) (after : list Node) : option Ptr :=
  match after with
  | [] => None
  | k :: after' =>
      if isElement (nType k) then Some (mkPtr k (Hole before ty data attr up after'))
      else nextElementFrom (k :: before) ty data attr up after'
  end.

(** [for k := ...PrevSibling; k != nil; k = k.PrevSibling]. *)
Fixpoint prevElementFrom (before : list Node) (ty : NodeType) (data : string)
    (attr : list Attribute) (up : Ctx) (after : list Node) : option Ptr :=
  match before with
  | [] => None
  | k :: before' =>
      if isElement (nType k) then Some (mkPtr k (Hole before' ty data attr up after))
      else prevElementFrom before' ty data attr up (k :: after)
  end.

Definition nextElementSibling (n : Ptr) : option Ptr :=
  match around n with
  | Top => None
  | Hole before ty data attr up after =>
      nextElementFrom (here n :: before) ty data attr up after
  end.

Definition prevElementSibling (n : Ptr) : option Ptr :=
  match around n with
  | Top => None
  | Hole before ty data attr up after =>
      prevElementFrom before ty data attr up (here n :: after)
  end.

Definition FindNextElementSibling (r : Root) : outcome Root :=
  let* n := deref (Pointer r) in
  match nextElementSibling n with
  | Some k => Ret (wrapNode k)
  | None => Ret (wrapErrf "no next element sibling found")
  end.

Definition FindPrevElementSibling (r : Root) : outcome Root :=
  let* n := deref (Pointer r) in
  match prevElementSibling n with
  | Some k => Ret (wrapNode k)
  | None => Ret (wrapErrf "no previous element sibling found")
  end.

Definition Children (r : Root) : outcome (list Root) :=
  let* n := deref (Pointer r) in
  Ret (map (fun k => mkRoot (Some k) (Data k) None) (childPtrs n)).

Definition getKeyValue (attrs : list Attribute) : gmap string string :=
  fold_left (fun kv attr => <[Key attr := Val attr]> kv) attrs ∅.

(** The nil map returned for a node that is not an element is [None]. *)
Definition Attrs (r : Root) : outcome (option (gmap string string)) :=
  let* n := deref (Pointer r) in
  if negb (isElement (Type_ n)) then Ret None
  else Ret (Some (getKeyValue (Attr n))).

(** A [strings.Builder] is the string written so far. *)
Definition WriteString (s : string) (data : string) : string := s +:+ data.

Definition Text (r : Root) : outcome string :=
  let* n := deref (Pointer r) in
  if isText (Type_ n) then Ret (Data n)
  else
    Ret (fold_left
           (fun s k => if isText (Type_ k) then WriteString s (Data k) else s)
           (childPtrs n) EmptyString).

Fixpoint fullTextAt (s : string) (t : Node) {struct t} : string :=
  let '(mkNode ty data _ kids) := t in
  if isText ty then WriteString s data
  else fold_left fullTextAt kids s.

Definition fullText (s : string) (n : Ptr) : string := fullTextAt s (here n).

Definition FullText (r : Root) : outcome string :=
  let* n := deref (Pointer r) in
  Ret (fullText EmptyString n).

(** ** [HTMLParse]: from the parsed document to its first element *)

(** The loop [for r.Type != html.ElementNode { switch r.Type {...} }] of
    [HTMLParse]. [r.Type] on a nil pointer panics; a node of a type the
    [switch] has no case for leaves [r] as it is. [None] when the loop is
    still running after [fuel] turns. *)
Fixpoint skipToElement (fuel : nat) (r : option Ptr) : option (outcome Ptr) :=
  match fuel with
  | O => None
  | S fuel' =>
      match r with
      | None => Some Panic
      | Some n =>
          if negb (isElement (Type_ n)) then
            match Type_ n with
            | DocumentNode => skipToElement fuel' (FirstChild n)
            | DoctypeNode => skipToElement fuel' (NextSibling n)
            | CommentNode => skipToElement fuel' (NextSibling n)
            | _ => skipToElement fuel' r
            end
          else Some (Ret n)
      end
  end.

(** [HTMLParse], given what [html.Parse] returns on each input: the root of
    the tree, or [None] for an error. *)
Definition HTMLParse (Parse : string -> option Ptr) (fuel : nat) (s : string)
    : option (outcome Root) :=
  match Parse s with
  | None => Some (Ret (wrapErrf "unable to parse the HTML"))
  | Some r =>
      match skipToElement fuel (Some r) with
      | None => None
      | Some (Ret n) => Some (Ret (wrapNode n))
      | Some Panic => Some Panic
      end
  end.

(** * Vocabulary of the properties *)

(** ** Tokens *)

(** The runes of [s] with their encodings, in the order in which
    [for _, rune := range s] yields them. *)
Fixpoint runesLoop (fuel : nat) (s : string) : list (Z * string) :=
  match fuel with
  | O => []
  | S fuel' =>
      match s with
      | EmptyString => []
      | String _ _ =>
          let '(rune, w) := utf8.DecodeRuneInString s in
          (rune, strings.take w s) :: runesLoop fuel' (strings.drop w s)
      end
  end.

Definition runes (s : string) : list (Z * string) :=
  runesLoop (String.length s) s.

(** The bytes of a sequence of runes. *)
Definition encoding (rs : list (Z * string)) : string :=
  fold_right (fun x acc => snd x +:+ acc) EmptyString rs.

Definition isSpaceRune (x : Z * string) : bool := unicode.IsSpace (fst x).

Definition noSpace (rs : list (Z * string)) : Prop :=
  Forall (fun x => isSpaceRune x = false) rs.

Definition startsWithSpace (rs : list (Z * string)) : Prop :=
  match rs with
  | [] => True
  | x :: _ => isSpaceRune x = true
  end.

Definition endsWithSpace (rs : list (Z * string)) : Prop :=
  match last rs with
  | None => True
  | Some x => isSpaceRune x = true
  end.

(** [val] is one whole whitespace-separated token of [s]: a non-empty run
    of runes of [s], none of them white space, with white space or an end
    of the string on either side. *)
Definition wholeToken (s val : string) : Prop :=
  exists pre mid post,
    runes s = pre ++ mid ++ post
    /\ mid <> []
    /\ val = encoding mid
    /\ noSpace mid
    /\ endsWithSpace pre
    /\ startsWithSpace post.

(** The loop of [FieldsFunc] over the runes already decoded. *)
Fixpoint fieldsOf (rs : list (Z * string)) (cur : option string) : list string :=
  match rs with
  | [] => strings.flush cur
  | x :: rs' =>
      if isSpaceRune x then strings.flush cur ++ fieldsOf rs' None
      else fieldsOf rs' (Some (default EmptyString cur +:+ snd x))
  end.

(** ** Trees, siblings and searches *)

(** The nodes of a subtree in pre-order, depth first: the node, then the
    subtrees of its children from first to last. *)
Fixpoint preorder (t : Node) : list Node :=
  let '(mkNode _ _ _ kids) := t in
  t :: flat_map preorder kids.

(** The nodes strictly below a node, in document order. *)
Definition descendants (t : Node) : list Node := flat_map preorder (nKids t).

Definition textNodes (l : list Node) : list Node :=
  List.filter (fun k => isText (nType k)) l.

(** The contents of the nodes of [l], concatenated in order. *)
Definition concatData (l : list Node) : string :=
  fold_right (fun k acc => nData k +:+ acc) EmptyString l.

(** The nodes [fullText] visits: the node and, unless it is a text node,
    what it visits in the subtrees of its children, in order. *)
Fixpoint visited (t : Node) : list Node :=
  let '(mkNode ty _ _ kids) := t in
  t :: (if isText ty then [] else flat_map visited kids).

(** In a parsed document a text node has no children. *)
Definition textLeaves (t : Node) : Prop :=
  Forall (fun k => nType k = TextNode -> nKids k = []) (preorder t).

(** [b] comes after [a] among the siblings, with only nodes satisfying
    [skipped] between them. *)
Inductive reaches (skipped : Ptr -> Prop) : Ptr -> Ptr -> Prop :=
| reaches_next a b :
    NextSibling a = Some b -> reaches skipped a b
| reaches_skip a k b :
    NextSibling a = Some k -> skipped k -> reaches skipped k b ->
    reaches skipped a b.

Definition notElement (k : Ptr) : Prop := Type_ k <> ElementNode.

(** Adjacent element siblings: two elements with no element between. *)
Definition adjacentElements (a b : Ptr) : Prop :=
  Type_ a = ElementNode /\ Type_ b = ElementNode /\ reaches notElement a b.

(** [b] is a later sibling of [a]. *)
Definition laterSibling (a b : Ptr) : Prop := reaches (fun _ => True) a b.

Definition nAfter (n : Ptr) : nat :=
  match around n with
  | Top => 0
  | Hole _ _ _ _ _ after => length after
  end.

Definition nBefore (n : Ptr) : nat :=
  match around n with
  | Top => 0
  | Hole before _ _ _ _ _ => length before
  end.

Definition findAll (n : Ptr) (args : list string) (uni strict : bool)
    (nodeLinks : list Ptr) : outcome (list Ptr) :=
  findAllAt (here n) (around n) args uni strict nodeLinks.

(** [for c := n.FirstChild; c != nil; c = c.NextSibling] in [findOnce]. *)
Fixpoint firstOnce (kids : list Ptr) (args : list string) (strict : bool)
    : outcome (option Ptr) :=
  match kids with
  | [] => Ret None
  | c :: rest =>
      let* pq := findOnce c args true strict in
      match pq with
      | Some p => Ret (Some p)
      | None => firstOnce rest args strict
      end
  end.

(** The same loop in [findAllofem]. *)
Fixpoint eachAll (kids : list Ptr) (args : list string) (strict : bool)
    (nodeLinks : list Ptr) : outcome (list Ptr) :=
  match kids with
  | [] => Ret nodeLinks
  | c :: rest =>
      let* nodeLinks := findAll c args true strict nodeLinks in
      eachAll rest args strict nodeLinks
  end.

(** [p] lies strictly below [n]. *)
Inductive below : Ptr -> Ptr -> Prop :=
| below_child n k : In k (childPtrs n) -> below n k
| below_deeper n k p : In k (childPtrs n) -> below k p -> below n p.

(** [Find] or [FindStrict], by the flag they pass to [findOnce]. *)
Definition FindWith (strict : bool) (r : Root) (args : list string)
    : outcome Root :=
  if strict then FindStrict r args else Find r args.

(** [n] is an element labelled [tag]. *)
Definition labelled (tag : string) (n : Ptr) : Prop :=
  Type_ n = ElementNode /\ Data n = tag.

(** The filter [(key, val)] on one attribute, strict or loose. *)
Definition satisfies (strict : bool) (key val : string) (attr : Attribute) : bool :=
  if strict then attributeAndValueEquals attr key val
  else attributeContainsValue attr key val.

(** ** Document order *)

(** The pointers to the nodes of the subtree [t] found at [c], in
    pre-order: the node, then the subtrees of its children in order. *)
Fixpoint subtreePtrs (t : Node) (c : Ctx) {struct t} : list Ptr :=
  let '(mkNode ty data attr kids) := t in
  mkPtr t c
  :: (fix children (before after : list Node) {struct after} : list Ptr :=
        match after with
        | [] => []
        | k :: after' =>
            subtreePtrs k (Hole before ty data attr c after')
            ++ children (k :: before) after'
        end) [] kids.

Definition preorderPtrs (n : Ptr) : list Ptr := subtreePtrs (here n) (around n).

(** The nodes strictly below [n], in document order. *)
Definition descPtrs (n : Ptr) : list Ptr := flat_map preorderPtrs (childPtrs n).

(** The nodes a call of [findOnce] or of the closure of [findAllofem]
    tests: [n] itself when [uni] is set, and all nodes below it. *)
Definition tested (uni : bool) (n : Ptr) : list Ptr :=
  (if uni then [n] else []) ++ descPtrs n.

(** An element labelled [tag]. *)
Definition isTag (tag : string) (p : Ptr) : bool :=
  isElement (Type_ p) && String.eqb (Data p) tag.

(** An element labelled [tag] with an attribute satisfying [(key, val)]. *)
Definition isTagWith (strict : bool) (tag key val : string) (p : Ptr) : bool :=
  isTag tag p && existsb (satisfies strict key val) (Attr p).

(** The number of attributes of [p] satisfying [(key, val)]. *)
Definition hits (strict : bool) (key val : string) (p : Ptr) : nat :=
  length (List.filter (satisfies strict key val) (Attr p)).

Definition hasLabel (tag : string) (p : Ptr) : bool := String.eqb (Data p) tag.

Definition hasAttr (p : Ptr) : bool :=
  match Attr p with
  | [] => false
  | _ :: _ => true
  end.

(** [FindAll] or [FindAllStrict], by the flag they pass to [findAllofem]. *)
Definition FindAllWith (strict : bool) (r : Root) (args : list string)
    : outcome (list Root) :=
  if strict then FindAllStrict r args else FindAll r args.

(** A [Root] holds a node and no error, or an error and no node. *)
Definition holdsNode (r : Root) : Prop := exists p, r = wrapNode p.
Definition holdsError (r : Root) : Prop := exists msg, r = wrapErr msg.

(** The strings of [l], one after the other. *)
Definition joinAll (l : list string) : string :=
  fold_right String.append EmptyString l.

(** The bytes of a string. *)
Definition bytes (s : string) : list ascii := list_ascii_of_string s.

(** One of the six ASCII white space bytes: tab, line feed, vertical tab,
    form feed, carriage return, space. *)
Definition asciiSpace (c : ascii) : bool :=
  (utf8.byteZ c <? 0x80)%Z && unicode.IsSpace (utf8.byteZ c).

(** The nodes [HTMLParse] steps over: doctypes and comments. *)
Definition skippable (k : Ptr) : Prop :=
  Type_ k = DoctypeNode \/ Type_ k = CommentNode.

(** The way up from a node: its index among its siblings, then its
    parent's, up to the root. *)
Fixpoint trailUp (c : Ctx) : list nat :=
  match c with
  | Top => []
  | Hole before _ _ _ up _ => length before :: trailUp up
  end.

(** ** Example documents *)

Definition twoClasses : Ptr :=
  mkPtr (mkNode ElementNode "a"
           [mkAttr "" "class" "x"; mkAttr "" "id" "i"; mkAttr "" "class" "y"] [])
        Top.

(** A text node below a text node, as [AppendChild] can build. *)
Definition nestedText : Node :=
  mkNode ElementNode "p" []
    [mkNode TextNode "x" [] [mkNode TextNode "y" [] []]].

Definition helloWorld : Node :=
  mkNode ElementNode "p" []
    [mkNode TextNode "Hello " [] [];
     mkNode ElementNode "b" [] [mkNode TextNode "world" [] []];
     mkNode TextNode "!" [] []].

Definition siblings : Node :=
  mkNode ElementNode "ul" []
    [mkNode ElementNode "li" [] [mkNode TextNode "one" [] []];
     mkNode TextNode " " [] [];
     mkNode CommentNode "sep" [] [];
     mkNode ElementNode "li" [] [mkNode TextNode "two" [] []];
     mkNode TextNode " " [] []].

Definition firstLi : Ptr := default (mkPtr siblings Top) (childPtrs (mkPtr siblings Top) !! 0%nat).
Definition secondLi : Ptr := default (mkPtr siblings Top) (childPtrs (mkPtr siblings Top) !! 3%nat).
Definition lastText : Ptr := default (mkPtr siblings Top) (childPtrs (mkPtr siblings Top) !! 4%nat).

Definition linkWithClass : Node :=
  mkNode ElementNode "div" []
    [mkNode ElementNode "a" [mkAttr "" "class" "x"] []].

Definition linkPlain : Node :=
  mkNode ElementNode "div" [] [mkNode ElementNode "a" [] []].

Definition nestedLinks : Node :=
  mkNode ElementNode "a" [] [mkNode ElementNode "a" [] []].

Definition textA : Node :=
  mkNode ElementNode "p" [] [mkNode TextNode "a" [] []].

Definition textAChild : Ptr :=
  mkPtr (mkNode TextNode "a" [] []) (Hole [] ElementNode "p" [] Top []).

Definition twiceClass : Node :=
  mkNode ElementNode "div" []
    [mkNode ElementNode "a" [mkAttr "" "class" "x"; mkAttr "" "class" "x"] []].

Definition twiceClassLink : Ptr :=
  mkPtr (mkNode ElementNode "a" [mkAttr "" "class" "x"; mkAttr "" "class" "x"] [])
        (Hole [] ElementNode "div" [] Top []).

Definition parsedPage : Node :=
  mkNode DocumentNode "" []
    [mkNode DoctypeNode "html" [] [];
     mkNode CommentNode " generated " [] [];
     mkNode ElementNode "html" []
       [mkNode ElementNode "head" [] [];
        mkNode ElementNode "body" [] [mkNode TextNode "hi" [] []]]].

Definition parsedHtml : Ptr :=
  default (mkPtr parsedPage Top) (childPtrs (mkPtr parsedPage Top) !! 2%nat).

(** * Properties *)

(** ** Induction on trees *)

Lemma Node_ind (P : Node -> Prop) :
  (forall ty data attr kids, Forall P kids -> P (mkNode ty data attr kids)) ->
  forall t, P t.
Proof.
  intros P_node. fix IH 1. intros [ty data attr kids]. apply P_node.
  induction kids as [|k kids IHkids]; constructor; [apply IH | exact IHkids].
Qed.

(** ** Strings *)

Lemma append_empty_r (s : string) : s +:+ EmptyString = s.
Proof.
  induction s as [|c s IH]; [reflexivity|].
  change (String c (s +:+ EmptyString) = String c s). now rewrite IH.
Qed.

Lemma append_assoc (s1 s2 s3 : string) :
  (s1 +:+ s2) +:+ s3 = s1 +:+ (s2 +:+ s3).
Proof.
  induction s1 as [|c s1 IH]; [reflexivity|].
  change (String c ((s1 +:+ s2) +:+ s3) = String c (s1 +:+ (s2 +:+ s3))).
  now rewrite IH.
Qed.

Lemma take_drop (n : nat) (s : string) :
  strings.take n s +:+ strings.drop n s = s.
Proof.
  revert s; induction n as [|n IH]; intros [|c s]; try reflexivity.
  change (String c (strings.take n s +:+ strings.drop n s) = String c s).
  now rewrite IH.
Qed.

Lemma drop_length (n : nat) (s : string) :
  String.length (strings.drop n s) = (String.length s - n)%nat.
Proof. revert s; induction n as [|n IH]; intros [|c s]; simpl; auto. Qed.

(** ** Runes and fields *)

(** A rune takes at least one byte and no more than the string has. *)
Lemma DecodeRuneInString_width (c : ascii) (s : string) (r : Z) (w : nat) :
  utf8.DecodeRuneInString (String c s) = (r, w) ->
  (1 <= w <= String.length (String c s))%nat.
Proof.
  unfold utf8.DecodeRuneInString.
  destruct (utf8.acceptRanges _) as [lo hi].
  repeat match goal with
         | |- context [if ?b then _ else _] => destruct b
         | |- context [match ?t with EmptyString => _ | String _ _ => _ end] =>
             destruct t
         end;
    intros H; inversion H; subst; simpl; lia.
Qed.

(** The length of the string is fuel enough to decode it to its end. *)
Lemma runesLoop_fuel (fuel : nat) (s : string) :
  (String.length s <= fuel)%nat -> runesLoop fuel s = runes s.
Proof.
  unfold runes. remember (String.length s) as m eqn:Hm.
  revert s fuel Hm. induction m as [m IH] using lt_wf_ind. intros s fuel Hm Hle.
  destruct s as [|c s]; [now destruct fuel; subst m|].
  destruct fuel as [|fuel]; [simpl in Hm; lia|].
  subst m. cbn [String.length runesLoop].
  destruct (utf8.DecodeRuneInString (String c s)) as [r w] eqn:Hd.
  apply DecodeRuneInString_width in Hd.
  pose proof (drop_length w (String c s)) as Hl. cbn [String.length] in *.
  f_equal.
  rewrite (IH (String.length (strings.drop w (String c s))) ltac:(lia)
              (strings.drop w (String c s)) fuel eq_refl ltac:(lia)).
  symmetry.
  apply (IH (String.length (strings.drop w (String c s))) ltac:(lia)
            (strings.drop w (String c s)) _ eq_refl). lia.
Qed.

(** The runes of a string, put end to end, are the string. *)
Lemma runes_encoding (s : string) : encoding (runes s) = s.
Proof.
  remember (String.length s) as m eqn:Hm.
  revert s Hm. induction m as [m IH] using lt_wf_ind. intros s Hm.
  destruct s as [|c s]; [reflexivity|].
  unfold runes. cbn [String.length runesLoop].
  destruct (utf8.DecodeRuneInString (String c s)) as [r w] eqn:Hd.
  apply DecodeRuneInString_width in Hd.
  pose proof (drop_length w (String c s)) as Hl. cbn [String.length] in *.
  rewrite runesLoop_fuel by lia.
  cbn [encoding fold_right snd].
  fold (encoding (runes (strings.drop w (String c s)))).
  assert (String.length (strings.drop w (String c s)) < m)%nat as Hlt by lia.
  rewrite (IH _ Hlt _ eq_refl).
  apply take_drop.
Qed.

Lemma encoding_app (rs1 rs2 : list (Z * string)) :
  encoding (rs1 ++ rs2) = encoding rs1 +:+ encoding rs2.
Proof.
  induction rs1 as [|x rs1 IH]; [reflexivity|].
  cbn [app encoding fold_right]. fold (encoding (rs1 ++ rs2)) (encoding rs1).
  now rewrite IH, append_assoc.
Qed.

Lemma fieldsLoop_runes (fuel : nat) (s : string) (cur : option string) :
  strings.fieldsLoop fuel unicode.IsSpace s cur = fieldsOf (runesLoop fuel s) cur.
Proof.
  revert s cur; induction fuel as [|fuel IH]; intros s cur; [reflexivity|].
  destruct s as [|c s]; [reflexivity|].
  cbn [strings.fieldsLoop runesLoop].
  destruct (utf8.DecodeRuneInString (String c s)) as [r w].
  cbn [fieldsOf]. unfold isSpaceRune; cbn [fst snd].
  destruct (unicode.IsSpace r); now rewrite IH.
Qed.

(** The loop of [Fields] is given fuel enough: more changes nothing. *)
Lemma fieldsLoop_fuel (fuel : nat) (s : string) (cur : option string) :
  (String.length s <= fuel)%nat ->
  strings.fieldsLoop fuel unicode.IsSpace s cur
  = strings.fieldsLoop (String.length s) unicode.IsSpace s cur.
Proof.
  intros Hle. rewrite !fieldsLoop_runes.
  now rewrite (runesLoop_fuel fuel s Hle), (runesLoop_fuel _ s (le_n _)).
Qed.

Lemma Fields_runes (s : string) : strings.Fields s = fieldsOf (runes s) None.
Proof. apply fieldsLoop_runes. Qed.

Lemma last_cons_match (x : Z * string) (pre : list (Z * string)) (Q Q' : Prop) :
  pre <> [] ->
  match last (x :: pre) with Some y => isSpaceRune y = true | None => Q end
  <-> match last pre with Some y => isSpaceRune y = true | None => Q' end.
Proof.
  destruct pre as [|y pre]; [congruence|]. intros _. rewrite last_cons_cons.
  destruct (last (y :: pre)) eqn:E; [tauto|].
  apply last_None in E. discriminate.
Qed.

(** What the loop returns: the field in progress, closed at the next white
    space, and the whole tokens of what is left to read. *)
Lemma fieldsOf_spec (rs : list (Z * string)) :
  forall (cur : option string) (val : string),
    In val (fieldsOf rs cur) <->
    (exists w mid post,
        cur = Some w /\ rs = mid ++ post /\ noSpace mid
        /\ startsWithSpace post /\ val = w +:+ encoding mid)
    \/ (exists pre mid post,
           rs = pre ++ mid ++ post /\ mid <> [] /\ val = encoding mid
           /\ noSpace mid /\ startsWithSpace post
           /\ match last pre with
              | Some x => isSpaceRune x = true
              | None => cur = None
              end).
Proof.
  induction rs as [|x rs IH]; intros cur val.
  - cbn [fieldsOf]. split.
    + destruct cur as [w|]; simpl; [|tauto]. intros [<-|[]].
      left. exists w, [], []. repeat split; try constructor.
      now rewrite append_empty_r.
    + intros [(w & mid & post & -> & Hrs & _ & _ & ->)
             |(pre & mid & post & Hrs & Hmid & _)].
      * symmetry in Hrs. apply app_eq_nil in Hrs as [-> ->].
        left. simpl. now rewrite append_empty_r.
      * symmetry in Hrs. apply app_eq_nil in Hrs as [_ Hrs].
        apply app_eq_nil in Hrs as [-> _]. congruence.
  - cbn [fieldsOf]. destruct (isSpaceRune x) eqn:Hx.
    + rewrite in_app_iff, IH. split.
      * intros [Hcur|[(w & _ & _ & Hw & _)
                     |(pre & mid & post & -> & Hmid & -> & Hns & Hpost & Hpre)]];
          [|discriminate|].
        -- destruct cur as [w|]; simpl in Hcur; [|tauto]. destruct Hcur as [<-|[]].
           left. exists w, [], (x :: rs). repeat split; try constructor; auto.
           now rewrite append_empty_r.
        -- right. exists (x :: pre), mid, post. repeat split; auto.
           destruct pre as [|y pre]; [exact Hx|].
           refine (proj2 (last_cons_match x (y :: pre) _ _ _) Hpre); discriminate.
      * intros [(w & mid & post & -> & Hrs & Hns & Hpost & ->)
               |(pre & mid & post & Hrs & Hmid & -> & Hns & Hpost & Hpre)].
        -- destruct mid as [|y mid].
           ++ left. simpl. left. now rewrite append_empty_r.
           ++ inversion Hrs; subst y. inversion Hns; congruence.
        -- right. right. destruct pre as [|y pre].
           ++ destruct mid as [|y mid]; [congruence|].
              inversion Hrs; subst y. inversion Hns; congruence.
           ++ inversion Hrs; subst y rs.
              exists pre, mid, post. repeat split; auto.
              destruct pre as [|z pre]; [reflexivity|].
              refine (proj1 (last_cons_match x (z :: pre) _ _ _) Hpre); discriminate.
    + rewrite IH. split.
      * intros [(w' & mid & post & Hw' & -> & Hns & Hpost & ->)
               |(pre & mid & post & -> & Hmid & -> & Hns & Hpost & Hpre)].
        -- inversion Hw'; subst w'. destruct cur as [w|]; simpl.
           ++ left. exists w, (x :: mid), post. repeat split; auto.
              ** now constructor.
              ** now rewrite append_assoc.
           ++ right. exists [], (x :: mid), post.
              repeat split; auto; try discriminate. now constructor.
        -- right. exists (x :: pre), mid, post. repeat split; auto.
           destruct pre as [|y pre]; [discriminate|].
           refine (proj2 (last_cons_match x (y :: pre) _ _ _) Hpre); discriminate.
      * intros [(w & mid & post & -> & Hrs & Hns & Hpost & ->)
               |(pre & mid & post & Hrs & Hmid & -> & Hns & Hpost & Hpre)].
        -- destruct mid as [|y mid].
           ++ simpl in Hrs; subst post. simpl in Hpost. congruence.
           ++ inversion Hrs; subst y rs. inversion Hns; subst.
              left. exists (w +:+ snd x), mid, post. repeat split; auto.
              simpl. now rewrite append_assoc.
        -- destruct pre as [|y pre].
           ++ destruct mid as [|y mid]; [congruence|].
              inversion Hrs; subst y rs. inversion Hns; subst.
              simpl in Hpre; subst cur.
              left. exists (snd x), mid, post. repeat split; auto.
           ++ inversion Hrs; subst y rs.
              destruct pre as [|z pre]; [simpl in Hpre; congruence|].
              right. exists (z :: pre), mid, post. repeat split; auto.
              refine (proj1 (last_cons_match x (z :: pre) _ _ _) Hpre); discriminate.
Qed.

(** The fields of a string are its whole tokens. *)
Lemma Fields_wholeToken (s val : string) :
  In val (strings.Fields s) <-> wholeToken s val.
Proof.
  rewrite Fields_runes, fieldsOf_spec. unfold wholeToken, endsWithSpace. split.
  - intros [(w & _ & _ & Hw & _)|(pre & mid & post & H1 & H2 & H3 & H4 & H5 & H6)];
      [discriminate|].
    exists pre, mid, post. repeat split; auto.
    now destruct (last pre).
  - intros (pre & mid & post & H1 & H2 & H3 & H4 & H5 & H6).
    right. exists pre, mid, post. repeat split; auto.
    now destruct (last pre).
Qed.

(** A whole token is a piece of the string. *)
Lemma wholeToken_substring (s val : string) :
  wholeToken s val -> exists s1 s2, s = s1 +:+ val +:+ s2.
Proof.
  intros (pre & mid & post & Hrs & _ & -> & _).
  exists (encoding pre), (encoding post).
  now rewrite <- !encoding_app, <- Hrs, runes_encoding.
Qed.

(** ** Strict and loose attribute matching *)

Lemma containsField_In (fs : list string) (val : string) :
  containsField fs val = true <-> In val fs.
Proof.
  induction fs as [|f fs IH]; simpl.
  - split; [discriminate | tauto].
  - destruct (String.eqb_spec f val) as [->|Hne].
    + split; auto.
    + rewrite IH. split; [tauto | intros [Heq|Hin]; [congruence | exact Hin]].
Qed.

(** C5. In strict mode an attribute satisfies the filter [(key, val)]
    exactly when its key is [key] and its whole value is [val]: an
    attribute [class="a b"] does not satisfy [(class, b)] but does satisfy
    [(class, "a b")]. *)
Theorem attributeAndValueEquals_exact :
  (forall attr key val,
      attributeAndValueEquals attr key val = true
      <-> Key attr = key /\ Val attr = val)
  /\ attributeAndValueEquals (mkAttr "" "class" "a b") "class" "b" = false
  /\ attributeAndValueEquals (mkAttr "" "class" "a b") "class" "a b" = true.
Proof.
  split; [|split; reflexivity].
  intros attr key val. unfold attributeAndValueEquals.
  rewrite andb_true_iff, !String.eqb_eq. tauto.
Qed.

Lemma attributeContainsValue_Fields (attr : Attribute) (key val : string) :
  attributeContainsValue attr key val = true
  <-> Key attr = key /\ In val (strings.Fields (Val attr)).
Proof.
  unfold attributeContainsValue.
  destruct (String.eqb_spec (Key attr) key) as [Hk|Hk]; simpl.
  - rewrite containsField_In. tauto.
  - split; [discriminate | tauto].
Qed.

(** C4. In loose mode an attribute satisfies the filter [(key, val)]
    exactly when its key is [key] and [val] is one whole
    whitespace-separated token of its value: [class="a b c"] satisfies
    [(class, b)], [class="ab"] does not. *)
Theorem attributeContainsValue_token :
  (forall attr key val,
      attributeContainsValue attr key val = true
      <-> Key attr = key /\ wholeToken (Val attr) val)
  /\ attributeContainsValue (mkAttr "" "class" "a b c") "class" "b" = true
  /\ attributeContainsValue (mkAttr "" "class" "ab") "class" "b" = false.
Proof.
  split; [|split; vm_compute; reflexivity].
  intros attr key val.
  now rewrite attributeContainsValue_Fields, Fields_wholeToken.
Qed.

(** ** Pointers: the links of the tree *)

Lemma ptr_eta (n : Ptr) : mkPtr (here n) (around n) = n.
Proof. now destruct n. Qed.

Lemma NextSibling_PrevSibling (a b : Ptr) :
  NextSibling a = Some b <-> PrevSibling b = Some a.
Proof.
  destruct a as [ta ca], b as [tb cb]. unfold NextSibling, PrevSibling; simpl.
  split; intros H.
  - destruct ca as [|before ty data attr up [|k after]]; try discriminate.
    now inversion H.
  - destruct cb as [|[|k before] ty data attr up after]; try discriminate.
    now inversion H.
Qed.

Lemma siblingsFrom_here before ty data attr up after :
  map here (siblingsFrom before ty data attr up after) = after.
Proof.
  revert before; induction after as [|k after IH]; intros before; simpl;
    [reflexivity | now rewrite IH].
Qed.

Lemma childPtrs_here (n : Ptr) : map here (childPtrs n) = nKids (here n).
Proof.
  unfold childPtrs. destruct (here n) as [ty data attr kids]; simpl.
  apply siblingsFrom_here.
Qed.

(** The children of a node are linked as in Go: [FirstChild] is the first
    of them, [NextSibling] of each is the one after it, and [Parent] of
    each is the node. *)
Lemma siblingsFrom_NextSibling before ty data attr up after (i : nat) (k : Ptr) :
  siblingsFrom before ty data attr up after !! i = Some k ->
  NextSibling k = siblingsFrom before ty data attr up after !! S i.
Proof.
  revert before i; induction after as [|a after IH]; intros before [|i] H;
    simpl in *; try discriminate.
  - inversion H; subst k. unfold NextSibling; simpl. now destruct after.
  - now apply IH in H.
Qed.

Lemma childPtrs_NextSibling (n : Ptr) (i : nat) (k : Ptr) :
  childPtrs n !! i = Some k -> NextSibling k = childPtrs n !! S i.
Proof.
  unfold childPtrs. destruct (here n) as [ty data attr kids].
  apply siblingsFrom_NextSibling.
Qed.

Lemma siblingsFrom_Parent before ty data attr up after (k : Ptr) :
  In k (siblingsFrom before ty data attr up after) ->
  Parent k = Some (mkPtr (mkNode ty data attr (rev_append before after)) up).
Proof.
  revert before; induction after as [|a after IH]; intros before; simpl; [tauto|].
  intros [<-|Hin]; [reflexivity|]. now apply IH in Hin.
Qed.

Lemma childPtrs_Parent (n k : Ptr) : In k (childPtrs n) -> Parent k = Some n.
Proof.
  unfold childPtrs. destruct n as [[ty data attr kids] c]; simpl.
  apply siblingsFrom_Parent.
Qed.

Lemma childPtrs_FirstChild (n : Ptr) : head (childPtrs n) = FirstChild n.
Proof.
  unfold childPtrs, FirstChild.
  destruct (here n) as [ty data attr [|k kids]]; reflexivity.
Qed.

Lemma siblingsFrom_depth before ty data attr up after :
  Forall (fun k => depth (around k) = S (depth up))
         (siblingsFrom before ty data attr up after).
Proof.
  revert before; induction after as [|k after IH]; intros before; simpl;
    constructor; auto.
Qed.

Lemma childPtrs_depth (n k : Ptr) :
  In k (childPtrs n) -> depth (around k) = S (depth (around n)).
Proof.
  unfold childPtrs. destruct (here n) as [ty data attr kids].
  intros Hin. pose proof (siblingsFrom_depth [] ty data attr (around n) kids) as HF.
  rewrite List.Forall_forall in HF. now apply HF.
Qed.

(** ** Attributes as a map *)

Lemma getKeyValue_fold (attrs : list Attribute) (m0 : gmap string string) (k : string) :
  fold_left (fun kv attr => <[Key attr := Val attr]> kv) attrs m0 !! k
  = match last (List.filter (fun a => String.eqb (Key a) k) attrs) with
    | Some a => Some (Val a)
    | None => m0 !! k
    end.
Proof.
  revert m0; induction attrs as [|a attrs IH]; intros m0; simpl.
  - reflexivity.
  - rewrite IH. destruct (String.eqb_spec (Key a) k) as [Hk|Hk].
    + change (a :: List.filter (fun a0 => String.eqb (Key a0) k) attrs)
        with ([a] ++ List.filter (fun a0 => String.eqb (Key a0) k) attrs).
      rewrite last_app.
      destruct (last (List.filter _ attrs)); [reflexivity|].
      simpl. subst k. now rewrite lookup_insert_eq.
    + destruct (last (List.filter _ attrs)); [reflexivity|].
      now rewrite lookup_insert_ne.
Qed.

Lemma getKeyValue_lookup (attrs : list Attribute) (k : string) :
  getKeyValue attrs !! k
  = Val <$> last (List.filter (fun a => String.eqb (Key a) k) attrs).
Proof.
  unfold getKeyValue. rewrite getKeyValue_fold, lookup_empty.
  now destruct (last _).
Qed.

(** C10. On an element, [Attrs] returns a map in which every key occurs
    once and is bound to the value of the last attribute of the node with
    that key; on any other node it returns the nil map; and the result of
    [Attrs] is determined by the node, so two calls on one node agree. *)
Theorem Attrs_last_wins (n : Ptr) :
  (Type_ n = ElementNode ->
   exists m : gmap string string,
     Attrs (wrapNode n) = Ret (Some m)
     /\ NoDup (map fst (map_to_list m))
     /\ forall k,
          m !! k = Val <$> last (List.filter (fun a => String.eqb (Key a) k) (Attr n)))
  /\ (Type_ n <> ElementNode -> Attrs (wrapNode n) = Ret None)
  /\ (forall r1 r2 : Root,
        Pointer r1 = Some n -> Pointer r2 = Some n -> Attrs r1 = Attrs r2).
Proof.
  split; [|split].
  - intros Hty. exists (getKeyValue (Attr n)). split; [|split].
    + unfold Attrs; simpl. now rewrite Hty.
    + apply NoDup_fst_map_to_list.
    + apply getKeyValue_lookup.
  - intros Hty. unfold Attrs; simpl.
    destruct (Type_ n); try reflexivity. congruence.
  - intros r1 r2 H1 H2. unfold Attrs. now rewrite H1, H2.
Qed.

Lemma Attrs_last_wins_witness :
  Type_ twoClasses = ElementNode
  /\ exists m : gmap string string,
       Attrs (wrapNode twoClasses) = Ret (Some m)
       /\ m !! "class" = Some "y" /\ m !! "id" = Some "i" /\ m !! "href" = None.
Proof.
  split; [reflexivity|].
  destruct (proj1 (Attrs_last_wins twoClasses) eq_refl) as (m & Hm & _ & Hk).
  exists m. split; [exact Hm|]. rewrite !Hk. repeat split; reflexivity.
Defined.

(** ** Text extraction *)

Lemma concatData_app (l1 l2 : list Node) :
  concatData (l1 ++ l2) = concatData l1 +:+ concatData l2.
Proof.
  induction l1 as [|k l1 IH]; simpl; [reflexivity|].
  now rewrite IH, append_assoc.
Qed.

Lemma textNodes_app (l1 l2 : list Node) :
  textNodes (l1 ++ l2) = textNodes l1 ++ textNodes l2.
Proof. apply List.filter_app. Qed.

Lemma Text_loop (kids : list Ptr) (s : string) :
  fold_left (fun s k => if isText (Type_ k) then WriteString s (Data k) else s)
            kids s
  = s +:+ concatData (textNodes (map here kids)).
Proof.
  revert s; induction kids as [|k kids IH]; intros s; simpl.
  - now rewrite append_empty_r.
  - rewrite IH. unfold Type_, Data, WriteString.
    destruct (isText (nType (here k))); simpl; [|reflexivity].
    now rewrite append_assoc.
Qed.

Lemma textLeaves_kids ty data attr kids :
  textLeaves (mkNode ty data attr kids) -> Forall textLeaves kids.
Proof.
  unfold textLeaves; simpl. intros H. inversion H as [|? ? _ Hkids]; subst.
  clear H. induction kids as [|k kids IH]; constructor.
  - simpl in Hkids. apply List.Forall_app in Hkids. tauto.
  - apply IH. simpl in Hkids. apply List.Forall_app in Hkids. tauto.
Qed.

(** [fullText] writes, after what the builder holds, the contents of the
    text nodes it visits. *)
Lemma fullTextAt_visited (t : Node) :
  forall s, fullTextAt s t = s +:+ concatData (textNodes (visited t)).
Proof.
  induction t as [ty data attr kids IH] using Node_ind. intros s.
  cbn [fullTextAt visited textNodes List.filter nType].
  destruct (isText ty) eqn:Hty.
  - cbn [concatData fold_right nData]. unfold WriteString.
    now rewrite append_empty_r.
  - fold (textNodes (flat_map visited kids)). revert s.
    induction IH as [|k kids Hk _ IHkids]; intros s; cbn [fold_left flat_map].
    + cbn. now rewrite append_empty_r.
    + rewrite IHkids, Hk. now rewrite textNodes_app, concatData_app, append_assoc.
Qed.

Lemma visited_textLeaves (t : Node) : textLeaves t -> visited t = preorder t.
Proof.
  induction t as [ty data attr kids IH] using Node_ind. intros Hwf.
  pose proof (textLeaves_kids _ _ _ _ Hwf) as Hkids.
  cbn [visited preorder]. f_equal. destruct (isText ty) eqn:Hty.
  - assert (kids = []) as ->; [|reflexivity].
    unfold textLeaves in Hwf; simpl in Hwf. inversion Hwf as [|? ? Hk _]; subst.
    apply Hk. simpl. now destruct ty.
  - clear Hwf Hty. induction IH as [|k kids Hk _ IHkids]; [reflexivity|].
    inversion Hkids; subst. cbn [flat_map]. now rewrite Hk, IHkids.
Qed.

(** C7, as stated, fails: [fullText] returns at a text node without going
    to its children. On a paragraph holding the text node [x] that holds
    the text node [y], both text nodes are descendants of the paragraph,
    with the contents ["xy"] in pre-order, and [FullText] returns ["x"]. *)
Lemma FullText_counterexample :
  textNodes (descendants nestedText)
  = [mkNode TextNode "x" [] [mkNode TextNode "y" [] []]; mkNode TextNode "y" [] []]
  /\ concatData (textNodes (descendants nestedText)) = "xy"
  /\ FullText (wrapNode (mkPtr nestedText Top)) = Ret "x"
  /\ FullText (wrapNode (mkPtr nestedText Top))
     <> Ret (concatData (textNodes (descendants nestedText))).
Proof. repeat split; try reflexivity. discriminate. Qed.

(** C7, amended. [Text] returns the content of a text node, and otherwise
    the contents of the direct children that are text nodes, in order.
    [FullText] returns, in pre-order, the contents of the text nodes met by
    the traversal that starts at the node and does not go below a text
    node. In a tree whose text nodes have no children these are all the
    text nodes of the subtree: for a node that is not a text node, those of
    all its descendants at any depth. On [<p>Hello <b>world</b>!</p>],
    [Text] is ["Hello !"] and [FullText] is ["Hello world!"]. *)
Theorem Text_FullText_spec :
  (forall n : Ptr,
      (Type_ n = TextNode -> Text (wrapNode n) = Ret (Data n))
      /\ (Type_ n <> TextNode ->
          Text (wrapNode n) = Ret (concatData (textNodes (nKids (here n)))))
      /\ (textLeaves (here n) ->
          FullText (wrapNode n) = Ret (concatData (textNodes (preorder (here n))))
          /\ (Type_ n <> TextNode ->
              FullText (wrapNode n)
              = Ret (concatData (textNodes (descendants (here n))))))
      /\ FullText (wrapNode n) = Ret (concatData (textNodes (visited (here n)))))
  /\ Text (wrapNode (mkPtr helloWorld Top)) = Ret "Hello !"
  /\ FullText (wrapNode (mkPtr helloWorld Top)) = Ret "Hello world!".
Proof.
  split; [|split; reflexivity].
  intros n.
  assert (FullText (wrapNode n)
          = Ret (concatData (textNodes (visited (here n))))) as Hvis.
  { unfold FullText, fullText; simpl. now rewrite fullTextAt_visited. }
  split; [|split; [|split; [|exact Hvis]]].
  - intros Hty. unfold Text; simpl. now rewrite Hty.
  - intros Hty. unfold Text; simpl.
    destruct (isText (Type_ n)) eqn:E.
    + exfalso. apply Hty. unfold isText in E. now destruct (Type_ n).
    + now rewrite Text_loop, childPtrs_here.
  - intros Hwf.
    assert (FullText (wrapNode n)
            = Ret (concatData (textNodes (preorder (here n))))) as Hfull
      by (now rewrite Hvis, visited_textLeaves).
    split; [exact Hfull|].
    intros Hty. rewrite Hfull. unfold descendants, Type_ in *.
    destruct (here n) as [ty data attr kids]; simpl in *.
    destruct ty; try reflexivity. congruence.
Qed.

Lemma Text_FullText_spec_witness :
  Type_ (mkPtr helloWorld Top) <> TextNode
  /\ textLeaves helloWorld
  /\ Text (wrapNode (mkPtr helloWorld Top))
     = Ret (concatData (textNodes (nKids helloWorld)))
  /\ FullText (wrapNode (mkPtr helloWorld Top))
     = Ret (concatData (textNodes (descendants helloWorld))).
Proof.
  assert (Type_ (mkPtr helloWorld Top) <> TextNode) as Hty by discriminate.
  assert (textLeaves helloWorld) as Hwf.
  { unfold textLeaves; simpl. repeat constructor; simpl; congruence. }
  destruct (proj1 Text_FullText_spec (mkPtr helloWorld Top))
    as (_ & Ht & Hf & _).
  split; [exact Hty|]. split; [exact Hwf|]. split.
  - exact (Ht Hty).
  - exact (proj2 (Hf Hwf) Hty).
Defined.

(** ** Sibling navigation *)

(** The two loops over siblings, as they are written: one step along the
    link, a test, and the loop again from there. *)
Lemma nextElementSibling_loop (n : Ptr) :
  nextElementSibling n
  = match NextSibling n with
    | None => None
    | Some k => if isElement (Type_ k) then Some k else nextElementSibling k
    end.
Proof.
  unfold nextElementSibling, NextSibling.
  destruct (around n) as [|before ty data attr up [|k after]]; reflexivity.
Qed.

Lemma prevElementSibling_loop (n : Ptr) :
  prevElementSibling n
  = match PrevSibling n with
    | None => None
    | Some k => if isElement (Type_ k) then Some k else prevElementSibling k
    end.
Proof.
  unfold prevElementSibling, PrevSibling.
  destruct (around n) as [|[|k before] ty data attr up after]; reflexivity.
Qed.

Lemma NextSibling_nAfter (a b : Ptr) :
  NextSibling a = Some b -> nAfter a = S (nAfter b).
Proof.
  unfold NextSibling, nAfter.
  destruct (around a) as [|before ty data attr up [|k after]]; try discriminate.
  intros H; inversion H; reflexivity.
Qed.

Lemma PrevSibling_nBefore (a b : Ptr) :
  PrevSibling a = Some b -> nBefore a = S (nBefore b).
Proof.
  unfold PrevSibling, nBefore.
  destruct (around a) as [|[|k before] ty data attr up after]; try discriminate.
  intros H; inversion H; reflexivity.
Qed.

Lemma isElement_true (ty : NodeType) : isElement ty = true <-> ty = ElementNode.
Proof. destruct ty; simpl; split; congruence. Qed.

Lemma isElement_false (ty : NodeType) : isElement ty = false <-> ty <> ElementNode.
Proof. destruct ty; simpl; split; congruence. Qed.

Lemma reaches_nextElement (a b : Ptr) :
  reaches notElement a b -> Type_ b = ElementNode ->
  nextElementSibling a = Some b.
Proof.
  intros Hr Hb. induction Hr as [a b Hn | a k b Hn Hk Hr IH];
    rewrite nextElementSibling_loop, Hn.
  - apply isElement_true in Hb. now rewrite Hb.
  - apply isElement_false in Hk. rewrite Hk. now apply IH.
Qed.

Lemma reaches_prevElement (a b : Ptr) :
  reaches notElement a b ->
  prevElementSibling b
  = if isElement (Type_ a) then Some a else prevElementSibling a.
Proof.
  intros Hr. induction Hr as [a b Hn | a k b Hn Hk Hr IH].
  - apply NextSibling_PrevSibling in Hn.
    now rewrite prevElementSibling_loop, Hn.
  - rewrite IH. apply isElement_false in Hk. rewrite Hk.
    apply NextSibling_PrevSibling in Hn.
    now rewrite prevElementSibling_loop, Hn.
Qed.

(** What the forward scan returns is an element among the later siblings. *)
Lemma nextElementSibling_sound (n k : Ptr) :
  nextElementSibling n = Some k ->
  Type_ k = ElementNode /\ laterSibling n k.
Proof.
  remember (nAfter n) as m eqn:Hm. revert n Hm.
  induction m as [|m IH]; intros n Hm; rewrite nextElementSibling_loop;
    destruct (NextSibling n) as [c|] eqn:Hn; try discriminate.
  - apply NextSibling_nAfter in Hn. lia.
  - destruct (isElement (Type_ c)) eqn:Hc.
    + intros H; inversion H; subst. split.
      * now apply isElement_true.
      * now apply reaches_next.
    + intros H. pose proof (NextSibling_nAfter _ _ Hn) as Hlen.
      destruct (IH c ltac:(lia) H) as [Hk Hl]. split; [exact Hk|].
      eapply reaches_skip; eauto.
Qed.

(** Seen from the right: [a] is an earlier sibling of [b]. *)
Lemma prevElementSibling_sound (n k : Ptr) :
  prevElementSibling n = Some k ->
  Type_ k = ElementNode /\ laterSibling k n.
Proof.
  remember (nBefore n) as m eqn:Hm. revert n Hm.
  induction m as [|m IH]; intros n Hm; rewrite prevElementSibling_loop;
    destruct (PrevSibling n) as [c|] eqn:Hn; try discriminate.
  - apply PrevSibling_nBefore in Hn. lia.
  - destruct (isElement (Type_ c)) eqn:Hc.
    + intros H; inversion H; subst. split.
      * now apply isElement_true.
      * apply reaches_next. now apply NextSibling_PrevSibling.
    + intros H. pose proof (PrevSibling_nBefore _ _ Hn) as Hlen.
      destruct (IH c ltac:(lia) H) as [Hk Hl]. split; [exact Hk|].
      clear - Hl Hn. apply NextSibling_PrevSibling in Hn.
      induction Hl as [a b Hab | a j b Haj _ Hl IHl].
      * eapply reaches_skip; [exact Hab | exact I | now apply reaches_next].
      * eapply reaches_skip; [exact Haj | exact I | now apply IHl].
Qed.

(** C9. For adjacent element siblings [a] before [b],
    [FindNextElementSibling] on [a] returns [b] and
    [FindPrevElementSibling] on [b] returns [a], whatever non-element
    siblings lie between them; a node with no element among its later
    (earlier) siblings gets the error "no next (previous) element sibling
    found". *)
Theorem element_sibling_round_trip :
  (forall a b : Ptr,
      adjacentElements a b ->
      FindNextElementSibling (wrapNode a) = Ret (wrapNode b)
      /\ FindPrevElementSibling (wrapNode b) = Ret (wrapNode a))
  /\ (forall n : Ptr,
        (forall k, laterSibling n k -> Type_ k <> ElementNode) ->
        FindNextElementSibling (wrapNode n)
        = Ret (wrapErrf "no next element sibling found"))
  /\ (forall n : Ptr,
        (forall k, laterSibling k n -> Type_ k <> ElementNode) ->
        FindPrevElementSibling (wrapNode n)
        = Ret (wrapErrf "no previous element sibling found")).
Proof.
  split; [|split].
  - intros a b (Ha & Hb & Hr). split.
    + unfold FindNextElementSibling; simpl.
      now rewrite (reaches_nextElement a b Hr Hb).
    + unfold FindPrevElementSibling; simpl.
      rewrite (reaches_prevElement a b Hr).
      apply isElement_true in Ha. now rewrite Ha.
  - intros n Hnone. unfold FindNextElementSibling; simpl.
    destruct (nextElementSibling n) as [k|] eqn:Hk; [|reflexivity].
    apply nextElementSibling_sound in Hk as [Hty Hl].
    now apply Hnone in Hl.
  - intros n Hnone. unfold FindPrevElementSibling; simpl.
    destruct (prevElementSibling n) as [k|] eqn:Hk; [|reflexivity].
    apply prevElementSibling_sound in Hk as [Hty Hl].
    now apply Hnone in Hl.
Qed.

Lemma element_sibling_round_trip_witness :
  adjacentElements firstLi secondLi
  /\ FindNextElementSibling (wrapNode firstLi) = Ret (wrapNode secondLi)
  /\ FindPrevElementSibling (wrapNode secondLi) = Ret (wrapNode firstLi)
  /\ (forall k, laterSibling lastText k -> Type_ k <> ElementNode)
  /\ FindNextElementSibling (wrapNode lastText)
     = Ret (wrapErrf "no next element sibling found").
Proof.
  assert (adjacentElements firstLi secondLi) as Hadj.
  { split; [reflexivity|]. split; [reflexivity|].
    eapply reaches_skip; [reflexivity | discriminate |].
    eapply reaches_skip; [reflexivity | discriminate |].
    apply reaches_next. reflexivity. }
  assert (forall k, laterSibling lastText k -> Type_ k <> ElementNode) as Hlast.
  { intros k Hk. inversion Hk; discriminate. }
  destruct element_sibling_round_trip as (Hrt & Hnext & _).
  split; [exact Hadj|]. split; [exact (proj1 (Hrt _ _ Hadj))|].
  split; [exact (proj2 (Hrt _ _ Hadj))|]. split; [exact Hlast|].
  exact (Hnext lastText Hlast).
Defined.

(** ** The search engine *)

(** [findOnce] as it is written: the test on [n] when [uni] is set, then
    the recursive calls on the children, each with [uni] set. *)
Lemma findOnce_loop (n : Ptr) (args : list string) (uni strict : bool) :
  findOnce n args uni strict
  = let* hit := onceSelf (Type_ n) (Data n) (Attr n) args uni strict in
    if hit then Ret (Some n) else firstOnce (childPtrs n) args strict.
Proof.
  destruct n as [t c]. unfold findOnce, childPtrs, Type_, Data, Attr; simpl.
  destruct t as [ty data attr kids]; simpl.
  destruct (onceSelf ty data attr args uni strict) as [[|]|]; try reflexivity.
  simpl. generalize (@nil Node) as before.
  induction kids as [|k kids IH]; intros before; simpl; [reflexivity|].
  unfold findOnce at 1; simpl.
  destruct (findOnceAt k _ args true strict) as [[p|]|]; simpl; auto.
Qed.

Lemma findAll_loop (n : Ptr) (args : list string) (uni strict : bool)
    (nodeLinks : list Ptr) :
  findAll n args uni strict nodeLinks
  = let* nodeLinks := allSelf n args uni strict nodeLinks in
    eachAll (childPtrs n) args strict nodeLinks.
Proof.
  destruct n as [t c]. unfold findAll, childPtrs; simpl.
  destruct t as [ty data attr kids]; simpl.
  destruct (allSelf _ args uni strict nodeLinks) as [nl|]; [|reflexivity].
  simpl. clear nodeLinks. revert nl. generalize (@nil Node) as before.
  induction kids as [|k kids IH]; intros before nl; simpl; [reflexivity|].
  unfold findAll at 1; simpl.
  destruct (findAllAt k _ args true strict nl) as [nl'|]; simpl; auto.
Qed.

(** Induction on pointers: from the children to the node. *)
Lemma Ptr_children_ind (P : Ptr -> Prop) :
  (forall n, Forall P (childPtrs n) -> P n) -> forall n, P n.
Proof.
  intros Hstep [t c]. revert c.
  induction t as [ty data attr kids IH] using Node_ind. intros c.
  apply Hstep. unfold childPtrs; simpl.
  generalize (@nil Node) as before.
  induction kids as [|k kids IHk]; intros before; simpl; constructor.
  - inversion IH; subst; auto.
  - inversion IH; subst; auto.
Qed.

Lemma below_depth (n p : Ptr) :
  below n p -> (depth (around n) < depth (around p))%nat.
Proof.
  induction 1 as [n k Hk | n k p Hk _ IH].
  - rewrite (childPtrs_depth n k Hk). lia.
  - rewrite (childPtrs_depth n k Hk) in IH. lia.
Qed.

Lemma below_irrefl (n : Ptr) : ~ below n n.
Proof. intros H. apply below_depth in H. lia. Qed.

(** *** What [findOnce] returns *)

Lemma onceSelf_true ty data attrs args uni strict :
  onceSelf ty data attrs args uni strict = Ret true ->
  uni = true /\ ty = ElementNode /\ index args 0 = Ret data.
Proof.
  unfold onceSelf. destruct uni; [|discriminate].
  destruct (isElement ty) eqn:Hty; [|discriminate].
  apply isElement_true in Hty.
  destruct (index args 0) as [a0|]; [|discriminate]. simpl.
  destruct (String.eqb_spec data a0) as [->|]; [|discriminate].
  auto.
Qed.

Lemma firstOnce_Some kids args strict p :
  firstOnce kids args strict = Ret (Some p) ->
  exists k, In k kids /\ findOnce k args true strict = Ret (Some p).
Proof.
  induction kids as [|c rest IH]; simpl; [discriminate|].
  destruct (findOnce c args true strict) as [[q|]|] eqn:Hc; simpl;
    try discriminate.
  - intros H; inversion H; subst. exists c; auto.
  - intros H. destruct (IH H) as (k & Hk & Hf). exists k; auto.
Qed.

(** A pointer returned by [findOnce] is an element labelled [args[0]]; it
    is the node itself only when [uni] is set, and lies below it otherwise. *)
Lemma findOnce_result (args : list string) (strict : bool) (n : Ptr) :
  forall uni p,
    findOnce n args uni strict = Ret (Some p) ->
    (Type_ p = ElementNode /\ index args 0 = Ret (Data p))
    /\ ((uni = true /\ p = n) \/ below n p).
Proof.
  induction n as [n IH] using Ptr_children_ind. intros uni p.
  rewrite findOnce_loop.
  destruct (onceSelf (Type_ n) (Data n) (Attr n) args uni strict)
    as [[|]|] eqn:Hself; simpl; try discriminate.
  - intros H; inversion H; subst p.
    apply onceSelf_true in Hself as (-> & Hty & Hidx). auto.
  - intros H. apply firstOnce_Some in H as (k & Hk & Hf).
    rewrite List.Forall_forall in IH.
    destruct (IH k Hk true p Hf) as [Hp [[_ ->]|Hb]].
    + split; [exact Hp|]. right. now apply below_child.
    + split; [exact Hp|]. right. eapply below_deeper; eauto.
Qed.

(** *** Arity *)

Lemma index_lt args i :
  (i < length args)%nat -> exists s, index args i = Ret s.
Proof.
  intros Hi. unfold index.
  destruct (nth_error args i) as [s|] eqn:E; [eauto|].
  apply nth_error_None in E. lia.
Qed.

Lemma onceAttrs_total attrs args strict :
  length args = 3%nat -> exists b, onceAttrs attrs args strict = Ret b.
Proof.
  intros Hlen. induction attrs as [|a attrs IH]; simpl; [eauto|].
  unfold attrHit.
  destruct (index_lt args 1 ltac:(lia)) as [s1 ->].
  destruct (index_lt args 2 ltac:(lia)) as [s2 ->]. simpl.
  destruct (_ || _); eauto.
Qed.

Lemma onceSelf_total ty data attrs args uni strict :
  length args = 1%nat \/ length args = 3%nat ->
  exists b, onceSelf ty data attrs args uni strict = Ret b.
Proof.
  intros Hlen. unfold onceSelf. destruct uni; [|eauto].
  destruct (isElement ty); [|eauto].
  destruct (index_lt args 0 ltac:(lia)) as [a0 ->]. simpl.
  destruct (String.eqb data a0); [|eauto].
  destruct Hlen as [Hlen|Hlen]; rewrite Hlen; simpl; [eauto|].
  now apply onceAttrs_total.
Qed.

(** With one or three arguments [findOnce] indexes [args] within range:
    the search runs to its end. *)
Lemma findOnce_total (args : list string) (strict : bool) (n : Ptr) :
  length args = 1%nat \/ length args = 3%nat ->
  forall uni, exists res, findOnce n args uni strict = Ret res.
Proof.
  intros Hlen. induction n as [n IH] using Ptr_children_ind. intros uni.
  rewrite findOnce_loop.
  destruct (onceSelf_total (Type_ n) (Data n) (Attr n) args uni strict Hlen)
    as [[|] ->]; simpl; [eauto|].
  induction IH as [|k kids Hk _ IHkids]; simpl; [eauto|].
  destruct (Hk true) as [[p|] ->]; simpl; eauto.
Qed.

Lemma onceSelf_arity4 ty data attrs args uni strict :
  (4 <= length args)%nat ->
  onceSelf ty data attrs args uni strict = Ret false.
Proof.
  intros Hlen. unfold onceSelf. destruct uni; [|reflexivity].
  destruct (isElement ty); [|reflexivity].
  destruct (index_lt args 0 ltac:(lia)) as [a0 ->]. simpl.
  destruct (String.eqb data a0); [|reflexivity].
  destruct (Nat.ltb_spec (length args) 4); [lia|].
  destruct (Nat.eqb_spec (length args) 1); [lia|].
  now rewrite andb_false_r.
Qed.

(** With four or more arguments no node passes the test. *)
Lemma findOnce_arity4 (args : list string) (strict : bool) (n : Ptr) :
  (4 <= length args)%nat ->
  forall uni, findOnce n args uni strict = Ret None.
Proof.
  intros Hlen. induction n as [n IH] using Ptr_children_ind. intros uni.
  rewrite findOnce_loop, onceSelf_arity4 by exact Hlen. simpl.
  induction IH as [|k kids Hk _ IHkids]; simpl; [reflexivity|].
  now rewrite Hk.
Qed.

Lemma FindWith_unfold (strict : bool) (r : Root) (args : list string) :
  FindWith strict r args
  = if (length args =? 0)%nat then Ret (wrapErrf "not enough arguments")
    else
      let* n := deref (Pointer r) in
      let* temp := findOnce n args false strict in
      match temp with
      | None => notFound args
      | Some t => Ret (wrapNode t)
      end.
Proof. destruct strict; reflexivity. Qed.

(** C1, as stated, fails: with two arguments [Find] does not return an
    argument error. It panics on [args[2]] at the first element labelled
    [args[0]] that has an attribute, and returns the not-found error when
    there is none; with four arguments it returns the not-found error. *)
Lemma Find_arity_counterexample :
  Find (wrapNode (mkPtr linkWithClass Top)) ["a"; "class"] = Panic
  /\ Find (wrapNode (mkPtr linkPlain Top)) ["a"; "class"]
     = Ret (wrapErrf "element `a` with attributes `class` not found")
  /\ Find (wrapNode (mkPtr linkWithClass Top)) ["a"; "class"; "x"; "y"]
     = Ret (wrapErrf "element `a` with attributes `class x y` not found").
Proof. repeat split; vm_compute; reflexivity. Qed.

(** C1, amended. [Find] and [FindStrict] with no argument return the
    error "not enough arguments". Called on a node with one or three
    arguments they run the search to its end and return the node found or
    the not-found error; with four or more arguments the search matches
    nothing and they return the not-found error. *)
Theorem Find_arity (strict : bool) (r : Root) (args : list string) :
  (args = [] -> FindWith strict r args = Ret (wrapErrf "not enough arguments"))
  /\ (forall n, Pointer r = Some n ->
      length args = 1%nat \/ length args = 3%nat ->
      exists temp,
        findOnce n args false strict = Ret temp
        /\ FindWith strict r args
           = match temp with
             | Some t => Ret (wrapNode t)
             | None => notFound args
             end)
  /\ (forall n, Pointer r = Some n ->
      (4 <= length args)%nat ->
      FindWith strict r args = notFound args).
Proof.
  rewrite FindWith_unfold. split; [|split].
  - intros ->. reflexivity.
  - intros n Hn Hlen.
    destruct (findOnce_total args strict n Hlen false) as [temp Htemp].
    exists temp. split; [exact Htemp|].
    rewrite Hn; simpl. rewrite Htemp; simpl.
    destruct (Nat.eqb_spec (length args) 0) as [H0|_]; [lia|].
    now destruct temp.
  - intros n Hn Hlen. rewrite Hn; simpl.
    rewrite (findOnce_arity4 args strict n Hlen false); simpl.
    destruct (Nat.eqb_spec (length args) 0) as [H0|_]; [lia|reflexivity].
Qed.

Lemma Find_arity_witness :
  Find (wrapErrf "upstream") [] = Ret (wrapErrf "not enough arguments")
  /\ (exists temp,
        findOnce (mkPtr linkWithClass Top) ["a"; "class"; "x"] false false = Ret temp
        /\ Find (wrapNode (mkPtr linkWithClass Top)) ["a"; "class"; "x"]
           = match temp with
             | Some t => Ret (wrapNode t)
             | None => notFound ["a"; "class"; "x"]
             end)
  /\ FindStrict (wrapNode (mkPtr linkPlain Top)) ["a"; "b"; "c"; "d"]
     = notFound ["a"; "b"; "c"; "d"].
Proof.
  split; [|split].
  - exact (proj1 (Find_arity false (wrapErrf "upstream") []) eq_refl).
  - apply (proj1 (proj2 (Find_arity false
             (wrapNode (mkPtr linkWithClass Top)) ["a"; "class"; "x"]))
             (mkPtr linkWithClass Top) eq_refl).
    right; reflexivity.
  - apply (proj2 (proj2 (Find_arity true
             (wrapNode (mkPtr linkPlain Top)) ["a"; "b"; "c"; "d"]))
             (mkPtr linkPlain Top) eq_refl).
    simpl; lia.
Defined.

(** *** The type test *)

Lemma FindWith_element (strict : bool) (r : Root) (args : list string)
    (res : Root) (p : Ptr) :
  FindWith strict r args = Ret res -> Pointer res = Some p ->
  Type_ p = ElementNode /\ index args 0 = Ret (Data p).
Proof.
  rewrite FindWith_unfold. destruct (length args =? 0)%nat.
  { intros H; inversion H; discriminate. }
  destruct (Pointer r) as [n|]; simpl; [|discriminate].
  destruct (findOnce n args false strict) as [[t|]|] eqn:Ht; simpl;
    try discriminate.
  - intros H; inversion H; subst res; simpl. intros Heq; inversion Heq; subst t.
    now apply findOnce_result in Ht as [Hp _].
  - unfold notFound. destruct (index args 0); simpl; [|discriminate].
    intros H; inversion H; discriminate.
Qed.

(** C3. [findAllofem] compares [n.Data] with the tag without looking at
    [n.Type]: on [<p>a</p>], [FindAll] and [FindAllStrict] for the tag [a]
    return the text node [a]. [findOnce] tests the type first: a node
    returned by [Find] or [FindStrict] is an element. *)
Theorem FindAll_text_node_Find_element :
  (Type_ textAChild = TextNode
   /\ Data textAChild = "a"
   /\ FindAll (wrapNode (mkPtr textA Top)) ["a"] = Ret [wrapNode textAChild]
   /\ FindAllStrict (wrapNode (mkPtr textA Top)) ["a"] = Ret [wrapNode textAChild])
  /\ (forall strict r args res p,
        FindWith strict r args = Ret res -> Pointer res = Some p ->
        Type_ p = ElementNode).
Proof.
  split.
  - repeat split; reflexivity.
  - intros strict r args res p Hres Hp.
    now destruct (FindWith_element strict r args res p Hres Hp).
Qed.

Lemma FindAll_text_node_Find_element_witness :
  exists res p,
    Find (wrapNode (mkPtr nestedLinks Top)) ["a"] = Ret res
    /\ Pointer res = Some p
    /\ Type_ p = ElementNode.
Proof.
  set (p := mkPtr (mkNode ElementNode "a" [] []) (Hole [] ElementNode "a" [] Top [])).
  exists (wrapNode p), p. split; [reflexivity|]. split; [reflexivity|].
  apply (proj2 FindAll_text_node_Find_element false
           (wrapNode (mkPtr nestedLinks Top)) ["a"] (wrapNode p) p);
    reflexivity.
Defined.

(** *** No match *)

Lemma onceSelf_miss tag rest ty data attrs uni strict :
  ~ (ty = ElementNode /\ data = tag) ->
  onceSelf ty data attrs (tag :: rest) uni strict = Ret false.
Proof.
  intros Hmiss. unfold onceSelf. destruct uni; [|reflexivity].
  destruct (isElement ty) eqn:Hty; [|reflexivity].
  apply isElement_true in Hty. simpl.
  destruct (String.eqb_spec data tag); [tauto | reflexivity].
Qed.

Lemma findOnce_none (tag : string) (rest : list string) (strict : bool) (n : Ptr) :
  forall uni,
    (uni = true -> ~ labelled tag n) ->
    (forall p, below n p -> ~ labelled tag p) ->
    findOnce n (tag :: rest) uni strict = Ret None.
Proof.
  induction n as [n IH] using Ptr_children_ind. intros uni Hself Hbelow.
  rewrite findOnce_loop.
  assert (onceSelf (Type_ n) (Data n) (Attr n) (tag :: rest) uni strict
          = Ret false) as ->.
  { destruct uni; [|reflexivity]. apply onceSelf_miss. now apply Hself. }
  simpl.
  assert (forall k, In k (childPtrs n) ->
                    findOnce k (tag :: rest) true strict = Ret None) as Hkids.
  { intros k Hk. rewrite List.Forall_forall in IH. apply IH; [exact Hk| |].
    - intros _. apply Hbelow. now apply below_child.
    - intros p Hp. apply Hbelow. eapply below_deeper; eauto. }
  clear IH Hself Hbelow.
  induction (childPtrs n) as [|k kids IHk]; simpl; [reflexivity|].
  rewrite Hkids by (left; reflexivity). simpl.
  apply IHk. intros k' Hk'. apply Hkids. now right.
Qed.

(** Without an element labelled [tag] below the node, [Find] and
    [FindStrict] return the not-found error, with or without a filter. *)
Lemma Find_not_found (strict : bool) (n : Ptr) (tag : string) (rest : list string) :
  (forall p, below n p -> ~ labelled tag p) ->
  FindWith strict (wrapNode n) (tag :: rest)
  = Ret (wrapErrf ("element `" +:+ tag +:+ "` with attributes `"
                   +:+ strings.Join rest " " +:+ "` not found")).
Proof.
  intros Hnone. rewrite FindWith_unfold; simpl.
  now rewrite findOnce_none by (discriminate || exact Hnone).
Qed.

Lemma findAll_none (tag : string) (rest : list string) (strict : bool) (n : Ptr) :
  forall uni nodeLinks,
    (uni = true -> Data n <> tag) ->
    (forall p, below n p -> Data p <> tag) ->
    findAll n (tag :: rest) uni strict nodeLinks = Ret nodeLinks.
Proof.
  induction n as [n IH] using Ptr_children_ind. intros uni nl Hself Hbelow.
  rewrite findAll_loop.
  assert (allSelf n (tag :: rest) uni strict nl = Ret nl) as ->.
  { unfold allSelf. destruct uni; [|reflexivity]. simpl.
    destruct (String.eqb_spec (Data n) tag) as [Heq|]; [|reflexivity].
    now apply Hself in Heq. }
  simpl.
  assert (forall k, In k (childPtrs n) ->
                    findAll k (tag :: rest) true strict nl = Ret nl) as Hkids.
  { intros k Hk. rewrite List.Forall_forall in IH. apply IH; [exact Hk| |].
    - intros _. apply Hbelow. now apply below_child.
    - intros p Hp. apply Hbelow. eapply below_deeper; eauto. }
  clear IH Hself Hbelow.
  induction (childPtrs n) as [|k kids IHk]; simpl; [reflexivity|].
  rewrite Hkids by (left; reflexivity). simpl.
  apply IHk. intros k' Hk'. apply Hkids. now right.
Qed.

(** Without any node, of whatever type, labelled [tag] below the node,
    [FindAll] returns the empty slice. *)
Lemma FindAll_empty (n : Ptr) (tag : string) (rest : list string) :
  (forall p, below n p -> Data p <> tag) ->
  FindAll (wrapNode n) (tag :: rest) = Ret []
  /\ FindAllStrict (wrapNode n) (tag :: rest) = Ret [].
Proof.
  intros Hnone. unfold FindAll, FindAllStrict, findAllofem; simpl.
  pose proof (findAll_none tag rest false n false [] ltac:(discriminate) Hnone) as H1.
  pose proof (findAll_none tag rest true n false [] ltac:(discriminate) Hnone) as H2.
  unfold findAll in H1, H2. now rewrite H1, H2.
Qed.

Lemma below_textA (p : Ptr) : below (mkPtr textA Top) p -> p = textAChild.
Proof.
  intros Hb. inversion Hb as [n k Hk | n k q Hk Hq]; subst.
  - simpl in Hk. destruct Hk as [<-|[]]. reflexivity.
  - simpl in Hk. destruct Hk as [<-|[]].
    inversion Hq as [n k Hk | n k q' Hk _]; subst; simpl in Hk; destruct Hk.
Qed.

(** C6 at [<p>a</p>] and the tag [a]: no element below the root is
    labelled [a] and [Find] returns the not-found error, but [FindAll]
    returns a slice of length one, holding the text node. *)
Theorem FindAll_without_element_not_empty :
  (forall p, below (mkPtr textA Top) p -> ~ labelled "a" p)
  /\ Find (wrapNode (mkPtr textA Top)) ["a"]
     = Ret (wrapErrf "element `a` with attributes `` not found")
  /\ FindAll (wrapNode (mkPtr textA Top)) ["a"] = Ret [wrapNode textAChild]
  /\ FindAll (wrapNode (mkPtr textA Top)) ["a"] <> Ret [].
Proof.
  split; [|split; [|split]]; try reflexivity.
  - intros p Hp [Hty _]. apply below_textA in Hp; subst p. discriminate.
  - discriminate.
Qed.

(** *** One append per satisfying attribute *)

Lemma attrHit_three attr tag key val strict :
  attrHit attr [tag; key; val] strict = Ret (satisfies strict key val attr).
Proof.
  unfold attrHit, satisfies; simpl. destruct strict; simpl; [|reflexivity].
  now rewrite orb_false_r.
Qed.

Lemma allAttrs_count (n : Ptr) (attrs : list Attribute) (tag key val : string)
    (strict : bool) (nodeLinks : list Ptr) :
  allAttrs n attrs [tag; key; val] strict nodeLinks
  = Ret (nodeLinks
         ++ List.repeat n (length (List.filter (satisfies strict key val) attrs))).
Proof.
  revert nodeLinks; induction attrs as [|a attrs IH]; intros nl.
  - simpl. now rewrite app_nil_r.
  - cbn [allAttrs]. rewrite attrHit_three. cbn [bind]. rewrite IH.
    cbn [List.filter]. destruct (satisfies strict key val a); [|reflexivity].
    cbn [length List.repeat]. now rewrite <- app_assoc.
Qed.

Lemma onceAttrs_exists (attrs : list Attribute) (tag key val : string)
    (strict : bool) :
  onceAttrs attrs [tag; key; val] strict
  = Ret (existsb (satisfies strict key val) attrs).
Proof.
  induction attrs as [|a attrs IH]; [reflexivity|].
  cbn [onceAttrs existsb]. rewrite attrHit_three. cbn [bind].
  now destruct (satisfies strict key val a).
Qed.

(** C8. The slice returned by [FindAll] and [FindAllStrict] can hold one
    node twice: on [<div><a class="x" class="x"></a></div>] the filter
    [(class, x)] returns the link two times. In general the test of
    [findAllofem] on a node labelled with the tag appends the node once for
    each attribute that satisfies the filter. [findOnce] returns at the
    first satisfying attribute, so [Find] returns the link once. *)
Theorem FindAll_repeats_node :
  (FindAll (wrapNode (mkPtr twiceClass Top)) ["a"; "class"; "x"]
   = Ret [wrapNode twiceClassLink; wrapNode twiceClassLink]
   /\ FindAllStrict (wrapNode (mkPtr twiceClass Top)) ["a"; "class"; "x"]
      = Ret [wrapNode twiceClassLink; wrapNode twiceClassLink]
   /\ ~ NoDup [wrapNode twiceClassLink; wrapNode twiceClassLink]
   /\ Find (wrapNode (mkPtr twiceClass Top)) ["a"; "class"; "x"]
      = Ret (wrapNode twiceClassLink)
   /\ FindStrict (wrapNode (mkPtr twiceClass Top)) ["a"; "class"; "x"]
      = Ret (wrapNode twiceClassLink))
  /\ (forall (n : Ptr) (key val : string) (strict : bool) (nodeLinks : list Ptr),
        allSelf n [Data n; key; val] true strict nodeLinks
        = Ret (nodeLinks
               ++ List.repeat n
                    (length (List.filter (satisfies strict key val) (Attr n)))))
  /\ (forall (ty : NodeType) (data : string) (attrs : list Attribute)
             (key val : string) (strict : bool),
        onceSelf ty data attrs [data; key; val] true strict
        = Ret (isElement ty && existsb (satisfies strict key val) attrs)).
Proof.
  split; [|split].
  - split; [vm_compute; reflexivity|]. split; [vm_compute; reflexivity|].
    split; [|split; vm_compute; reflexivity].
    intros Hnd. inversion Hnd as [|? ? Hnotin _]; subst. apply Hnotin. now left.
  - intros n key val strict nl. unfold allSelf. cbn [index nth_error bind].
    rewrite String.eqb_refl. cbn [length Nat.ltb Nat.leb andb].
    apply allAttrs_count.
  - intros ty data attrs key val strict. unfold onceSelf.
    destruct (isElement ty); [|reflexivity].
    cbn [index nth_error bind]. rewrite String.eqb_refl.
    cbn [length Nat.ltb Nat.leb andb]. apply onceAttrs_exists.
Qed.

(** ** Document order *)

Lemma preorderPtrs_unfold (n : Ptr) :
  preorderPtrs n = n :: descPtrs n.
Proof.
  destruct n as [[ty data attr kids] c].
  unfold descPtrs, preorderPtrs, childPtrs; simpl. f_equal.
  generalize (@nil Node) as before.
  induction kids as [|k kids IH]; intros before; simpl; [reflexivity|].
  now rewrite IH.
Qed.

Lemma descPtrs_below (n p : Ptr) : In p (descPtrs n) <-> below n p.
Proof.
  split.
  - revert p. induction n as [n IH] using Ptr_children_ind. intros p.
    unfold descPtrs. rewrite in_flat_map. intros (k & Hk & Hp).
    rewrite preorderPtrs_unfold in Hp. destruct Hp as [<-|Hp].
    + now apply below_child.
    + rewrite List.Forall_forall in IH. eapply below_deeper; eauto.
  - induction 1 as [n k Hk | n k p Hk _ IH]; unfold descPtrs;
      rewrite in_flat_map; exists k; split; auto;
      rewrite preorderPtrs_unfold; [now left | now right].
Qed.

Lemma find_app {A : Type} (f : A -> bool) (l1 l2 : list A) :
  List.find f (l1 ++ l2)
  = match List.find f l1 with Some x => Some x | None => List.find f l2 end.
Proof.
  induction l1 as [|x l1 IH]; simpl; [reflexivity|].
  now destruct (f x).
Qed.

(** ** The searches in document order *)

(** [findOnce] returns at the first tested node that the test accepts or
    on which it panics. *)
Lemma findOnce_find (args : list string) (strict : bool) (bad h : Ptr -> bool) :
  (forall p, onceSelf (Type_ p) (Data p) (Attr p) args true strict
             = if bad p then Panic else Ret (h p)) ->
  forall n uni,
    findOnce n args uni strict
    = match List.find (fun p => bad p || h p) (tested uni n) with
      | None => Ret None
      | Some p => if bad p then Panic else Ret (Some p)
      end.
Proof.
  intros Hself. induction n as [n IH] using Ptr_children_ind. intros uni.
  rewrite findOnce_loop.
  assert (firstOnce (childPtrs n) args strict
          = match List.find (fun p => bad p || h p) (descPtrs n) with
            | None => Ret None
            | Some p => if bad p then Panic else Ret (Some p)
            end) as Hkids.
  { unfold descPtrs. induction IH as [|k kids Hk _ IHkids]; [reflexivity|].
    cbn [firstOnce flat_map]. rewrite find_app, (Hk true).
    unfold tested. change ([k] ++ descPtrs k) with (k :: descPtrs k).
    rewrite <- preorderPtrs_unfold.
    destruct (List.find _ (preorderPtrs k)) as [p|] eqn:Hp.
    - apply find_some in Hp as [_ Hp].
      destruct (bad p); [reflexivity|]. reflexivity.
    - exact IHkids. }
  destruct uni; unfold tested.
  - rewrite Hself. cbn [app List.find].
    destruct (bad n) eqn:Hb; cbn [bind orb]; [now rewrite Hb|].
    destruct (h n); [now rewrite Hb | exact Hkids].
  - exact Hkids.
Qed.

(** The closure of [findAllofem] appends, for each tested node in order,
    as many copies as its test appends, unless the test panics on one. *)
Lemma findAll_flat_map (args : list string) (strict : bool)
    (bad : Ptr -> bool) (c : Ptr -> nat) :
  (forall p nl, allSelf p args true strict nl
                = if bad p then Panic else Ret (nl ++ List.repeat p (c p))) ->
  forall n uni nl,
    findAll n args uni strict nl
    = if existsb bad (tested uni n) then Panic
      else Ret (nl ++ flat_map (fun p => List.repeat p (c p)) (tested uni n)).
Proof.
  intros Hself. induction n as [n IH] using Ptr_children_ind. intros uni nl.
  rewrite findAll_loop.
  assert (forall nl, eachAll (childPtrs n) args strict nl
          = if existsb bad (descPtrs n) then Panic
            else Ret (nl ++ flat_map (fun p => List.repeat p (c p)) (descPtrs n)))
    as Hkids.
  { unfold descPtrs. clear nl.
    induction IH as [|k kids Hk _ IHkids]; intros nl.
    - simpl. now rewrite app_nil_r.
    - cbn [eachAll flat_map]. rewrite existsb_app, flat_map_app, (Hk true).
      unfold tested. change ([k] ++ descPtrs k) with (k :: descPtrs k).
      rewrite <- preorderPtrs_unfold.
      destruct (existsb bad (preorderPtrs k)); [reflexivity|].
      cbn [bind orb]. rewrite IHkids.
      destruct (existsb bad _); [reflexivity|]. now rewrite app_assoc. }
  destruct uni; unfold tested.
  - rewrite Hself. cbn [app existsb flat_map].
    destruct (bad n); [reflexivity|]. cbn [bind orb]. rewrite Hkids.
    destruct (existsb bad _); [reflexivity|]. now rewrite app_assoc.
  - apply Hkids.
Qed.

Lemma FindAllWith_unfold (strict : bool) (n : Ptr) (args : list string) :
  FindAllWith strict (wrapNode n) args
  = let* temp := findAll n args false strict [] in Ret (map wrapNode temp).
Proof.
  unfold FindAllWith, FindAll, FindAllStrict, findAllofem, findAll; simpl.
  destruct strict;
    destruct (findAllAt _ _ _ _ _ _) as [[|p temp]|]; reflexivity.
Qed.

(** The test of [findOnce], by the number of arguments. *)
Lemma onceSelf_one ty data attrs tag strict :
  onceSelf ty data attrs [tag] true strict
  = Ret (isElement ty && String.eqb data tag).
Proof.
  unfold onceSelf. destruct (isElement ty); [|reflexivity]. simpl.
  now destruct (String.eqb data tag).
Qed.

Lemma onceSelf_two ty data attrs tag key strict :
  onceSelf ty data attrs [tag; key] true strict
  = if isElement ty && String.eqb data tag
       && match attrs with [] => false | _ :: _ => true end
    then Panic else Ret false.
Proof.
  unfold onceSelf. destruct (isElement ty); [|reflexivity]. simpl.
  destruct (String.eqb data tag); [|reflexivity].
  now destruct attrs.
Qed.

Lemma onceSelf_three ty data attrs tag key val strict :
  onceSelf ty data attrs [tag; key; val] true strict
  = Ret (isElement ty && String.eqb data tag
         && existsb (satisfies strict key val) attrs).
Proof.
  unfold onceSelf. destruct (isElement ty); [|reflexivity].
  cbn [index nth_error bind]. destruct (String.eqb data tag); [|reflexivity].
  cbn [length Nat.ltb Nat.leb andb]. apply onceAttrs_exists.
Qed.

Lemma find_ext {A : Type} (f g : A -> bool) (l : list A) :
  (forall x, f x = g x) -> List.find f l = List.find g l.
Proof.
  intros Hfg. induction l as [|x l IH]; simpl; [reflexivity|].
  now rewrite Hfg, IH.
Qed.

(** *** The receiver is not tested *)

(** C2. [Find] and [FindStrict] never test the node they are called on:
    the first call of [findOnce] goes straight to the loop over the
    children, so what it returns lies strictly below the node and is never
    the node itself, and on a node without children it finds nothing even
    when the node satisfies the criteria. The calls made on the way down,
    one for each child in order until one returns a node, do test the root
    of each subtree: a root that passes the test is returned, and one that
    fails it is passed over for its own children. So the first call
    returns the first node in document order, among the nodes strictly
    below the receiver, that passes the test, and a call made on the way
    down the first among the root of its subtree and the nodes below. *)
Theorem Find_skips_receiver (strict : bool) (n : Ptr) (args : list string) :
  findOnce n args false strict = firstOnce (childPtrs n) args strict
  /\ (forall p, findOnce n args false strict = Ret (Some p) ->
                below n p /\ p <> n)
  /\ (forall r res, Pointer r = Some n -> FindWith strict r args = Ret res ->
                    Pointer res <> Some n)
  /\ (childPtrs n = [] -> args <> [] ->
      FindWith strict (wrapNode n) args = notFound args)
  /\ (onceSelf (Type_ n) (Data n) (Attr n) args true strict = Ret true ->
      findOnce n args true strict = Ret (Some n))
  /\ (forall k rest, childPtrs n = k :: rest ->
      onceSelf (Type_ k) (Data k) (Attr k) args true strict = Ret true ->
      findOnce n args false strict = Ret (Some k))
  /\ findOnce n args true strict
     = (let* hit := onceSelf (Type_ n) (Data n) (Attr n) args true strict in
        if hit then Ret (Some n) else firstOnce (childPtrs n) args strict)
  /\ (forall kids,
        firstOnce kids args strict
        = match kids with
          | [] => Ret None
          | k :: rest =>
              let* pq := findOnce k args true strict in
              match pq with
              | Some p => Ret (Some p)
              | None => firstOnce rest args strict
              end
          end)
  /\ (forall tag,
        findOnce n [tag] false strict
        = Ret (List.find (isTag tag) (descPtrs n))
        /\ findOnce n [tag] true strict
           = Ret (List.find (isTag tag) (n :: descPtrs n)))
  /\ (forall tag key val,
        findOnce n [tag; key; val] false strict
        = Ret (List.find (isTagWith strict tag key val) (descPtrs n))
        /\ findOnce n [tag; key; val] true strict
           = Ret (List.find (isTagWith strict tag key val) (n :: descPtrs n))).
Proof.
  assert (forall p, findOnce n args false strict = Ret (Some p) ->
                    below n p /\ p <> n) as Hbelow.
  { intros p Hp. apply findOnce_result in Hp as [_ [[Hu _]|Hb]];
      [discriminate|].
    split; [exact Hb|]. intros ->. now apply below_irrefl in Hb. }
  assert (forall (h : Ptr -> bool) (l : list Ptr),
            match List.find (fun p => false || h p) l with
            | Some p => Ret (Some p)
            | None => Ret None
            end = Ret (List.find h l)) as Hfind.
  { intros h l. rewrite (find_ext (fun p => false || h p) h) by reflexivity.
    now destruct (List.find h l). }
  split; [|split; [|split; [|split; [|split; [|split; [|split; [|split;
    [|split]]]]]]]].
  - now rewrite findOnce_loop.
  - exact Hbelow.
  - intros r res Hr. rewrite FindWith_unfold, Hr.
    destruct (length args =? 0)%nat.
    { intros H; inversion H; discriminate. }
    simpl. destruct (findOnce n args false strict) as [[t|]|] eqn:Ht; simpl;
      try discriminate.
    + intros H; inversion H; subst res; simpl.
      intros Heq; inversion Heq; subst t.
      apply findOnce_result in Ht as [_ [[Hu _]|Hb]]; [discriminate|].
      now apply below_irrefl in Hb.
    + unfold notFound. destruct (index args 0); simpl; [|discriminate].
      intros H; inversion H; discriminate.
  - intros Hkids Hargs. rewrite FindWith_unfold; simpl.
    destruct args as [|a0 rest]; [congruence|]. simpl.
    now rewrite findOnce_loop, Hkids.
  - intros Hself. now rewrite findOnce_loop, Hself.
  - intros k rest Hkids Hself. rewrite findOnce_loop; simpl.
    rewrite Hkids; simpl. now rewrite findOnce_loop, Hself.
  - apply findOnce_loop.
  - intros [|k rest]; reflexivity.
  - intros tag. split;
      rewrite (findOnce_find [tag] strict (fun _ => false) (isTag tag))
        by (intros p; apply onceSelf_one);
      apply Hfind.
  - intros tag key val. split;
      rewrite (findOnce_find [tag; key; val] strict (fun _ => false)
                 (isTagWith strict tag key val))
        by (intros p; apply onceSelf_three);
      apply Hfind.
Qed.

Lemma Find_skips_receiver_witness :
  onceSelf ElementNode "a" [] ["a"] true false = Ret true
  /\ (exists p, findOnce (mkPtr nestedLinks Top) ["a"] false false = Ret (Some p)
                /\ below (mkPtr nestedLinks Top) p
                /\ p <> mkPtr nestedLinks Top
                /\ Find (wrapNode p) ["a"] = notFound ["a"]
                /\ findOnce p ["a"] true false = Ret (Some p)).
Proof.
  split; [reflexivity|].
  set (n := mkPtr nestedLinks Top).
  set (p := mkPtr (mkNode ElementNode "a" [] []) (Hole [] ElementNode "a" [] Top [])).
  assert (findOnce n ["a"] false false = Ret (Some p)) as Hp.
  { apply (proj1 (proj2 (proj2 (proj2 (proj2 (proj2
             (Find_skips_receiver false n ["a"])))))) p []); reflexivity. }
  exists p. split; [exact Hp|].
  destruct (proj1 (proj2 (Find_skips_receiver false n ["a"])) p Hp) as [Hb Hne].
  split; [exact Hb|]. split; [exact Hne|]. split.
  - apply (proj1 (proj2 (proj2 (proj2 (Find_skips_receiver false p ["a"])))));
      [reflexivity | discriminate].
  - apply (proj1 (proj2 (proj2 (proj2 (proj2
             (Find_skips_receiver false p ["a"])))))). reflexivity.
Defined.

(** The test of [findAllofem], by the number of arguments. *)
Lemma allSelf_one p tag strict nl :
  allSelf p [tag] true strict nl
  = Ret (nl ++ List.repeat p (if hasLabel tag p then 1 else 0)).
Proof.
  unfold allSelf, hasLabel. simpl.
  destruct (String.eqb (Data p) tag); simpl; [reflexivity|].
  now rewrite app_nil_r.
Qed.

Lemma allSelf_two p tag key strict nl :
  allSelf p [tag; key] true strict nl
  = if hasLabel tag p && hasAttr p then Panic else Ret nl.
Proof.
  unfold allSelf, hasLabel, hasAttr. simpl.
  destruct (String.eqb (Data p) tag); [|reflexivity].
  now destruct (Attr p).
Qed.

Lemma allSelf_three p tag key val strict nl :
  allSelf p [tag; key; val] true strict nl
  = Ret (nl ++ List.repeat p (if hasLabel tag p then hits strict key val p else 0)).
Proof.
  unfold allSelf, hasLabel, hits. cbn [index nth_error bind].
  destruct (String.eqb (Data p) tag).
  - cbn [length Nat.ltb Nat.leb andb]. apply allAttrs_count.
  - simpl. now rewrite app_nil_r.
Qed.

Lemma allSelf_arity4 p args strict nl :
  (4 <= length args)%nat -> allSelf p args true strict nl = Ret nl.
Proof.
  intros Hlen. unfold allSelf.
  destruct (index_lt args 0 ltac:(lia)) as [a0 ->]. simpl.
  destruct (String.eqb (Data p) a0); [|reflexivity].
  destruct (Nat.ltb_spec (length args) 4); [lia|].
  destruct (Nat.eqb_spec (length args) 1); [lia|].
  now rewrite andb_false_r.
Qed.

Lemma flat_map_repeat_filter {A : Type} (f : A -> bool) (l : list A) :
  flat_map (fun x => List.repeat x (if f x then 1 else 0)) l = List.filter f l.
Proof.
  induction l as [|x l IH]; simpl; [reflexivity|].
  rewrite IH. now destruct (f x).
Qed.

Lemma existsb_false {A : Type} (l : list A) : existsb (fun _ => false) l = false.
Proof. induction l; auto. Qed.

Lemma flat_map_nil {A B : Type} (l : list A) :
  flat_map (fun _ : A => @nil B) l = [].
Proof. induction l; auto. Qed.

Lemma FindWith_one (strict : bool) (n : Ptr) (tag : string) :
  FindWith strict (wrapNode n) [tag]
  = match List.find (isTag tag) (descPtrs n) with
    | Some p => Ret (wrapNode p)
    | None => notFound [tag]
    end.
Proof.
  rewrite FindWith_unfold. cbn [length Nat.eqb deref Pointer wrapNode bind].
  rewrite (findOnce_find [tag] strict (fun _ => false) (isTag tag))
    by (intros p; apply onceSelf_one).
  unfold tested; cbn [app orb].
  now destruct (List.find _ (descPtrs n)).
Qed.

Lemma FindWith_three (strict : bool) (n : Ptr) (tag key val : string) :
  FindWith strict (wrapNode n) [tag; key; val]
  = match List.find (isTagWith strict tag key val) (descPtrs n) with
    | Some p => Ret (wrapNode p)
    | None => notFound [tag; key; val]
    end.
Proof.
  rewrite FindWith_unfold. cbn [length Nat.eqb deref Pointer wrapNode bind].
  rewrite (findOnce_find [tag; key; val] strict (fun _ => false)
             (isTagWith strict tag key val))
    by (intros p; apply onceSelf_three).
  unfold tested; cbn [app orb].
  now destruct (List.find _ (descPtrs n)).
Qed.

(** X1. [Find] and [FindStrict] return the first node, in document order
    among the nodes below the receiver, that is an element labelled with
    the tag and, when a filter is given, has an attribute satisfying it;
    they return the not-found error exactly when there is none. *)
Theorem Find_first_in_document_order (strict : bool) (n : Ptr)
    (tag key val : string) :
  FindWith strict (wrapNode n) [tag]
  = match List.find (isTag tag) (descPtrs n) with
    | Some p => Ret (wrapNode p)
    | None => notFound [tag]
    end
  /\ FindWith strict (wrapNode n) [tag; key; val]
     = match List.find (isTagWith strict tag key val) (descPtrs n) with
       | Some p => Ret (wrapNode p)
       | None => notFound [tag; key; val]
       end.
Proof. split; [apply FindWith_one | apply FindWith_three]. Qed.

Lemma FindAllWith_one (strict : bool) (n : Ptr) (tag : string) :
  FindAllWith strict (wrapNode n) [tag]
  = Ret (map wrapNode (List.filter (hasLabel tag) (descPtrs n))).
Proof.
  rewrite FindAllWith_unfold.
  rewrite (findAll_flat_map [tag] strict (fun _ => false)
             (fun p => if hasLabel tag p then 1 else 0)%nat)
    by (intros p nl; apply allSelf_one).
  unfold tested; cbn [app]. rewrite existsb_false.
  cbn [bind app]. now rewrite flat_map_repeat_filter.
Qed.

Lemma FindAllWith_three (strict : bool) (n : Ptr) (tag key val : string) :
  FindAllWith strict (wrapNode n) [tag; key; val]
  = Ret (map wrapNode
           (flat_map (fun p => List.repeat p
                                 (if hasLabel tag p then hits strict key val p
                                  else 0))
                     (descPtrs n))).
Proof.
  rewrite FindAllWith_unfold.
  rewrite (findAll_flat_map [tag; key; val] strict (fun _ => false)
             (fun p => if hasLabel tag p then hits strict key val p else 0)%nat)
    by (intros p nl; apply allSelf_three).
  unfold tested; cbn [app]. now rewrite existsb_false.
Qed.

(** X2. [FindAll] and [FindAllStrict] return, in document order, the nodes
    below the receiver whose label is the tag, whatever their type; with a
    filter, each such node as many times as it has attributes satisfying
    the filter. *)
Theorem FindAll_in_document_order (strict : bool) (n : Ptr)
    (tag key val : string) :
  FindAllWith strict (wrapNode n) [tag]
  = Ret (map wrapNode (List.filter (hasLabel tag) (descPtrs n)))
  /\ FindAllWith strict (wrapNode n) [tag; key; val]
     = Ret (map wrapNode
              (flat_map (fun p => List.repeat p
                                    (if hasLabel tag p then hits strict key val p
                                     else 0))
                        (descPtrs n))).
Proof. split; [apply FindAllWith_one | apply FindAllWith_three]. Qed.

Lemma find_filter {A : Type} (f g : A -> bool) (l : list A) :
  List.find f (List.filter g l) = List.find (fun x => g x && f x) l.
Proof.
  induction l as [|x l IH]; simpl; [reflexivity|].
  destruct (g x); simpl; [|exact IH]. now rewrite IH.
Qed.

Lemma existsb_filter_length {A : Type} (f : A -> bool) (l : list A) :
  existsb f l = negb (length (List.filter f l) =? 0)%nat.
Proof.
  induction l as [|x l IH]; simpl; [reflexivity|].
  now destruct (f x).
Qed.

Lemma find_flat_map_repeat {A : Type} (f : A -> bool) (c : A -> nat) (l : list A) :
  List.find f (flat_map (fun x => List.repeat x (c x)) l)
  = List.find (fun x => negb (c x =? 0)%nat && f x) l.
Proof.
  induction l as [|x l IH]; simpl; [reflexivity|].
  rewrite find_app, IH. destruct (c x) as [|k]; simpl; [reflexivity|].
  destruct (f x) eqn:Hf; [reflexivity|].
  assert (List.find f (List.repeat x k) = None) as ->; [|reflexivity].
  induction k as [|k IHk]; simpl; [reflexivity|]. now rewrite Hf.
Qed.

(** X3. With a tag, or a tag and a filter, what [Find] returns is the
    first element in the slice that [FindAll] returns, and [Find] returns
    the not-found error exactly when that slice holds no element; the same
    for [FindStrict] and [FindAllStrict]. *)
Theorem Find_first_element_of_FindAll (strict : bool) (n : Ptr)
    (args : list string) :
  length args = 1%nat \/ length args = 3%nat ->
  exists temp : list Ptr,
    FindAllWith strict (wrapNode n) args = Ret (map wrapNode temp)
    /\ FindWith strict (wrapNode n) args
       = match List.find (fun p => isElement (Type_ p)) temp with
         | Some p => Ret (wrapNode p)
         | None => notFound args
         end.
Proof.
  intros [Hlen|Hlen].
  - destruct args as [|tag [|? ?]]; try discriminate.
    pose proof (FindAllWith_one strict n tag) as HA.
    pose proof (FindWith_one strict n tag) as HF.
    eexists. split; [exact HA|]. rewrite HF, find_filter.
    erewrite find_ext; [reflexivity|].
    intros p. unfold isTag, hasLabel. apply andb_comm.
  - destruct args as [|tag [|key [|val [|? ?]]]]; try discriminate.
    pose proof (FindAllWith_three strict n tag key val) as HA.
    pose proof (FindWith_three strict n tag key val) as HF.
    eexists. split; [exact HA|]. rewrite HF, find_flat_map_repeat.
    erewrite find_ext; [reflexivity|].
    intros p. unfold isTagWith, isTag, hasLabel, hits.
    rewrite existsb_filter_length.
    destruct (String.eqb (Data p) tag), (isElement (Type_ p)); simpl; auto.
    + now rewrite andb_true_r.
    + now rewrite andb_false_r.
Qed.

Lemma Find_first_element_of_FindAll_witness :
  exists temp : list Ptr,
    FindAll (wrapNode (mkPtr twiceClass Top)) ["a"; "class"; "x"]
    = Ret (map wrapNode temp)
    /\ Find (wrapNode (mkPtr twiceClass Top)) ["a"; "class"; "x"]
       = match List.find (fun p => isElement (Type_ p)) temp with
         | Some p => Ret (wrapNode p)
         | None => notFound ["a"; "class"; "x"]
         end.
Proof.
  apply (Find_first_element_of_FindAll false (mkPtr twiceClass Top)
           ["a"; "class"; "x"]).
  right; reflexivity.
Defined.

Lemma find_existsb {A : Type} (f : A -> bool) (l : list A) :
  existsb f l = match List.find f l with Some _ => true | None => false end.
Proof.
  induction l as [|x l IH]; simpl; [reflexivity|]. now destruct (f x).
Qed.

(** X4. With exactly two arguments [Find] and [FindStrict] never match:
    they panic, indexing [args[2]], when some element below the receiver
    is labelled with the tag and has an attribute, and return the not-found
    error otherwise. *)
Theorem Find_two_arguments (strict : bool) (n : Ptr) (tag key : string) :
  FindWith strict (wrapNode n) [tag; key]
  = if existsb (fun p => isTag tag p && hasAttr p) (descPtrs n) then Panic
    else notFound [tag; key].
Proof.
  rewrite FindWith_unfold. cbn [length Nat.eqb deref Pointer wrapNode bind].
  rewrite (findOnce_find [tag; key] strict
             (fun p => isTag tag p && hasAttr p) (fun _ => false))
    by (intros p; apply onceSelf_two).
  unfold tested; cbn [app]. rewrite find_existsb.
  erewrite (find_ext (fun p => isTag tag p && hasAttr p || false));
    [|intros p; apply orb_false_r].
  destruct (List.find _ (descPtrs n)) as [p|] eqn:Hp; [|reflexivity].
  apply find_some in Hp as [_ Hp]. now rewrite Hp.
Qed.

(** X5. [FindAll] and [FindAllStrict] do not check the number of
    arguments. With none they panic, indexing [args[0]], as soon as the
    receiver has a child, and return the empty slice on a node without
    children; with two they panic when some node below the receiver is
    labelled with the tag and has an attribute, and return the empty slice
    otherwise; with four or more they return the empty slice. *)
Theorem FindAll_arity (strict : bool) (n : Ptr) :
  FindAllWith strict (wrapNode n) []
  = match FirstChild n with
    | Some _ => Panic
    | None => Ret []
    end
  /\ (forall tag key,
        FindAllWith strict (wrapNode n) [tag; key]
        = if existsb (fun p => hasLabel tag p && hasAttr p) (descPtrs n)
          then Panic else Ret [])
  /\ (forall args, (4 <= length args)%nat ->
        FindAllWith strict (wrapNode n) args = Ret []).
Proof.
  split; [|split].
  - rewrite FindAllWith_unfold.
    rewrite (findAll_flat_map [] strict (fun _ => true) (fun _ => 0%nat))
      by reflexivity.
    unfold tested, descPtrs; cbn [app]. rewrite <- childPtrs_FirstChild.
    destruct (childPtrs n) as [|k kids]; [reflexivity|].
    cbn [flat_map]. now rewrite preorderPtrs_unfold.
  - intros tag key. rewrite FindAllWith_unfold.
    rewrite (findAll_flat_map [tag; key] strict
               (fun p => hasLabel tag p && hasAttr p) (fun _ => 0%nat)).
    + unfold tested; cbn [app]. destruct (existsb _ _); [reflexivity|].
      cbn [List.repeat bind]. now rewrite flat_map_nil.
    + intros p nl. rewrite allSelf_two. cbn [List.repeat].
      now rewrite app_nil_r.
  - intros args Hlen. rewrite FindAllWith_unfold.
    rewrite (findAll_flat_map args strict (fun _ => false) (fun _ => 0%nat)).
    + unfold tested; cbn [app]. rewrite existsb_false.
      cbn [List.repeat bind]. now rewrite flat_map_nil.
    + intros p nl. rewrite allSelf_arity4 by exact Hlen. cbn [List.repeat].
      now rewrite app_nil_r.
Qed.

Lemma FindAll_arity_witness :
  FindAll (wrapNode (mkPtr linkWithClass Top)) ["a"; "class"; "x"; "y"] = Ret [].
Proof.
  apply (proj2 (proj2 (FindAll_arity false (mkPtr linkWithClass Top)))).
  simpl; lia.
Defined.

Lemma subtreePtrs_here (t : Node) :
  forall c, map here (subtreePtrs t c) = preorder t.
Proof.
  induction t as [ty data attr kids IH] using Node_ind. intros c.
  cbn [subtreePtrs preorder map here]. f_equal.
  generalize (@nil Node) as before.
  induction IH as [|k kids Hk _ IHkids]; intros before; [reflexivity|].
  cbn [flat_map]. now rewrite map_app, Hk, IHkids.
Qed.

(** The nodes that [descPtrs] points to are those of [descendants]. *)
Lemma descPtrs_here (n : Ptr) : map here (descPtrs n) = descendants (here n).
Proof.
  unfold descPtrs, descendants. rewrite <- childPtrs_here.
  induction (childPtrs n) as [|k kids IH]; [reflexivity|].
  cbn [flat_map map]. rewrite map_app, IH. f_equal.
  apply subtreePtrs_here.
Qed.

(** ** What the methods return *)

(** X6. Every [Root] returned by a method that returns one holds either a
    node, with its label and no error, or an error and the nil pointer;
    every [Root] in a slice returned by [FindAll], [FindAllStrict] or
    [Children] holds a node. *)
Theorem Root_node_or_error (strict : bool) (r : Root) (args : list string) :
  (forall res,
      FindWith strict r args = Ret res
      \/ FindNextSibling r = Ret res \/ FindPrevSibling r = Ret res
      \/ FindNextElementSibling r = Ret res
      \/ FindPrevElementSibling r = Ret res ->
      holdsNode res \/ holdsError res)
  /\ (forall l,
        FindAllWith strict r args = Ret l \/ Children r = Ret l ->
        Forall holdsNode l).
Proof.
  split.
  - intros res H. rewrite FindWith_unfold in H.
    unfold FindNextSibling, FindPrevSibling, FindNextElementSibling,
      FindPrevElementSibling, notFound, holdsNode, holdsError, wrapErrf in *.
    destruct H as [H|[H|[H|[H|H]]]].
    + destruct (length args =? 0)%nat; [inversion H; eauto|].
      destruct (Pointer r) as [n|]; simpl in H; [|discriminate].
      destruct (findOnce n args false strict) as [[t|]|]; simpl in H;
        try discriminate; [inversion H; eauto|].
      destruct (index args 0); simpl in H; [|discriminate]. inversion H; eauto.
    + destruct (Pointer r) as [n|]; simpl in H; [|discriminate].
      destruct (NextSibling n); inversion H; eauto.
    + destruct (Pointer r) as [n|]; simpl in H; [|discriminate].
      destruct (PrevSibling n); inversion H; eauto.
    + destruct (Pointer r) as [n|]; simpl in H; [|discriminate].
      destruct (nextElementSibling n); inversion H; eauto.
    + destruct (Pointer r) as [n|]; simpl in H; [|discriminate].
      destruct (prevElementSibling n); inversion H; eauto.
  - intros l [H|H].
    + unfold FindAllWith, FindAll, FindAllStrict in H.
      destruct (Pointer r) as [n|]; [|destruct strict; discriminate].
      destruct strict; simpl in H;
        destruct (findAllofem n args _) as [temp|]; simpl in H;
        try discriminate;
        destruct (length temp =? 0)%nat; inversion H; subst;
        try constructor; apply List.Forall_forall; intros x Hx;
        apply in_map_iff in Hx as (p & <- & _); now exists p.
    + unfold Children in H. destruct (Pointer r) as [n|]; [|discriminate].
      inversion H; subst. apply List.Forall_forall. intros x Hx.
      apply in_map_iff in Hx as (p & <- & _). now exists p.
Qed.

Lemma Root_node_or_error_witness :
  holdsNode (wrapNode twiceClassLink)
  \/ holdsError (wrapNode twiceClassLink).
Proof.
  apply (proj1 (Root_node_or_error false (wrapNode (mkPtr twiceClass Top))
                  ["a"; "class"; "x"])).
  left. vm_compute. reflexivity.
Defined.

(** X7. A [Root] that holds an error cannot be used: on it every method
    panics on the nil pointer, [Find] and [FindStrict] as soon as they are
    given an argument. So does every method called on the result of a
    [Find] that found nothing. *)
Theorem error_Root_panics (r : Root) :
  Pointer r = None ->
  (forall strict args, args <> [] ->
      FindWith strict r args = Panic /\ FindAllWith strict r args = Panic)
  /\ (forall strict, FindAllWith strict r [] = Panic)
  /\ FindNextSibling r = Panic /\ FindPrevSibling r = Panic
  /\ FindNextElementSibling r = Panic /\ FindPrevElementSibling r = Panic
  /\ Children r = Panic /\ Attrs r = Panic
  /\ Text r = Panic /\ FullText r = Panic.
Proof.
  intros Hnil.
  unfold FindWith, FindAllWith, Find, FindStrict, FindAll, FindAllStrict,
    FindNextSibling, FindPrevSibling, FindNextElementSibling,
    FindPrevElementSibling, Children, Attrs, Text, FullText.
  rewrite Hnil. repeat split; try (destruct strict; reflexivity).
  - destruct args; [congruence|]. destruct strict; reflexivity.
Qed.

Lemma error_Root_panics_witness :
  Find (wrapNode (mkPtr linkPlain Top)) ["table"]
  = Ret (wrapErrf "element `table` with attributes `` not found")
  /\ Text (wrapErrf "element `table` with attributes `` not found") = Panic
  /\ Find (wrapErrf "element `table` with attributes `` not found") ["tr"] = Panic.
Proof.
  split; [reflexivity|].
  destruct (error_Root_panics
              (wrapErrf "element `table` with attributes `` not found") eq_refl)
    as (Hfind & _ & _ & _ & _ & _ & _ & _ & Htext & _).
  split; [exact Htext|].
  exact (proj1 (Hfind false ["tr"] ltac:(discriminate))).
Defined.

(** ** Siblings and children *)

Lemma NextSibling_Parent (a b : Ptr) :
  NextSibling a = Some b -> Parent b = Parent a.
Proof.
  unfold NextSibling, Parent. destruct a as [ta ca]; simpl.
  destruct ca as [|before ty data attr up [|k after]]; try discriminate.
  intros H; inversion H; subst; reflexivity.
Qed.

(** X8. [FindNextSibling] and [FindPrevSibling] undo each other: the next
    sibling of [a] is [b] exactly when the previous sibling of [b] is [a],
    and then both have the same parent. The root of the document has
    neither. *)
Theorem sibling_round_trip :
  (forall a b : Ptr,
      FindNextSibling (wrapNode a) = Ret (wrapNode b)
      <-> FindPrevSibling (wrapNode b) = Ret (wrapNode a))
  /\ (forall a b : Ptr,
        FindNextSibling (wrapNode a) = Ret (wrapNode b) -> Parent b = Parent a)
  /\ (forall t : Node,
        FindNextSibling (wrapNode (mkPtr t Top))
        = Ret (wrapErrf "no next sibling found")
        /\ FindPrevSibling (wrapNode (mkPtr t Top))
           = Ret (wrapErrf "no previous sibling found")).
Proof.
  assert (forall a b, FindNextSibling (wrapNode a) = Ret (wrapNode b)
                      <-> NextSibling a = Some b) as Hnext.
  { intros a b. unfold FindNextSibling; simpl.
    destruct (NextSibling a) as [k|]; split; intros H; try discriminate.
    - inversion H; now subst.
    - now inversion H. }
  assert (forall a b, FindPrevSibling (wrapNode b) = Ret (wrapNode a)
                      <-> PrevSibling b = Some a) as Hprev.
  { intros a b. unfold FindPrevSibling; simpl.
    destruct (PrevSibling b) as [k|]; split; intros H; try discriminate.
    - inversion H; now subst.
    - now inversion H. }
  split; [|split].
  - intros a b. rewrite Hnext, Hprev. apply NextSibling_PrevSibling.
  - intros a b H. apply Hnext in H. now apply NextSibling_Parent.
  - intros t. split; reflexivity.
Qed.

Lemma sibling_round_trip_witness :
  FindNextSibling (wrapNode firstLi) = Ret (wrapNode (default firstLi (NextSibling firstLi)))
  /\ FindPrevSibling (wrapNode (default firstLi (NextSibling firstLi)))
     = Ret (wrapNode firstLi)
  /\ Parent (default firstLi (NextSibling firstLi)) = Parent firstLi.
Proof.
  assert (FindNextSibling (wrapNode firstLi)
          = Ret (wrapNode (default firstLi (NextSibling firstLi)))) as Hn
    by reflexivity.
  destruct sibling_round_trip as (Hrt & Hpar & _).
  split; [exact Hn|]. split.
  - exact (proj1 (Hrt _ _) Hn).
  - exact (Hpar _ _ Hn).
Defined.

Lemma nextElementSibling_nearest (n k : Ptr) :
  nextElementSibling n = Some k ->
  Type_ k = ElementNode /\ reaches notElement n k.
Proof.
  remember (nAfter n) as m eqn:Hm. revert n Hm.
  induction m as [|m IH]; intros n Hm; rewrite nextElementSibling_loop;
    destruct (NextSibling n) as [c|] eqn:Hn; try discriminate.
  - apply NextSibling_nAfter in Hn. lia.
  - destruct (isElement (Type_ c)) eqn:Hc.
    + intros H; inversion H; subst. split.
      * now apply isElement_true.
      * now apply reaches_next.
    + intros H. pose proof (NextSibling_nAfter _ _ Hn) as Hlen.
      destruct (IH c ltac:(lia) H) as [Hk Hl]. split; [exact Hk|].
      eapply reaches_skip; eauto. now apply isElement_false.
Qed.

Lemma reaches_snoc (skipped : Ptr -> Prop) (a b c : Ptr) :
  reaches skipped a b -> skipped b -> NextSibling b = Some c ->
  reaches skipped a c.
Proof.
  intros Hab Hb Hbc. induction Hab as [a b Hn | a k b Hn Hk _ IH].
  - eapply reaches_skip; [exact Hn | exact Hb | now apply reaches_next].
  - eapply reaches_skip; [exact Hn | exact Hk | now apply IH].
Qed.

Lemma prevElementSibling_nearest (n k : Ptr) :
  prevElementSibling n = Some k ->
  Type_ k = ElementNode /\ reaches notElement k n.
Proof.
  remember (nBefore n) as m eqn:Hm. revert n Hm.
  induction m as [|m IH]; intros n Hm; rewrite prevElementSibling_loop;
    destruct (PrevSibling n) as [c|] eqn:Hn; try discriminate.
  - apply PrevSibling_nBefore in Hn. lia.
  - destruct (isElement (Type_ c)) eqn:Hc.
    + intros H; inversion H; subst. split.
      * now apply isElement_true.
      * apply reaches_next. now apply NextSibling_PrevSibling.
    + intros H. pose proof (PrevSibling_nBefore _ _ Hn) as Hlen.
      destruct (IH c ltac:(lia) H) as [Hk Hl]. split; [exact Hk|].
      apply NextSibling_PrevSibling in Hn.
      eapply reaches_snoc; [exact Hl | now apply isElement_false | exact Hn].
Qed.

(** X9. What [FindNextElementSibling] returns is the nearest element to
    the right: an element among the later siblings with no element between
    the receiver and it; [FindPrevElementSibling] likewise to the left.
    When the adjacent sibling is an element, they return what
    [FindNextSibling] and [FindPrevSibling] return. *)
Theorem element_sibling_nearest (n : Ptr) :
  (forall k, FindNextElementSibling (wrapNode n) = Ret (wrapNode k) ->
             Type_ k = ElementNode /\ reaches notElement n k)
  /\ (forall k, FindPrevElementSibling (wrapNode n) = Ret (wrapNode k) ->
                Type_ k = ElementNode /\ reaches notElement k n)
  /\ (forall k, FindNextSibling (wrapNode n) = Ret (wrapNode k) ->
                Type_ k = ElementNode ->
                FindNextElementSibling (wrapNode n) = Ret (wrapNode k))
  /\ (forall k, FindPrevSibling (wrapNode n) = Ret (wrapNode k) ->
                Type_ k = ElementNode ->
                FindPrevElementSibling (wrapNode n) = Ret (wrapNode k)).
Proof.
  unfold FindNextElementSibling, FindPrevElementSibling, FindNextSibling,
    FindPrevSibling; simpl.
  split; [|split; [|split]].
  - intros k H. destruct (nextElementSibling n) as [c|] eqn:Hc;
      [|discriminate]. inversion H; subst c.
    now apply nextElementSibling_nearest.
  - intros k H. destruct (prevElementSibling n) as [c|] eqn:Hc;
      [|discriminate]. inversion H; subst c.
    now apply prevElementSibling_nearest.
  - intros k H Hk. rewrite nextElementSibling_loop.
    destruct (NextSibling n) as [c|]; [|discriminate]. inversion H; subst c.
    apply isElement_true in Hk. now rewrite Hk.
  - intros k H Hk. rewrite prevElementSibling_loop.
    destruct (PrevSibling n) as [c|]; [|discriminate]. inversion H; subst c.
    apply isElement_true in Hk. now rewrite Hk.
Qed.

Lemma element_sibling_nearest_witness :
  FindNextElementSibling (wrapNode firstLi) = Ret (wrapNode secondLi)
  /\ Type_ secondLi = ElementNode
  /\ reaches notElement firstLi secondLi.
Proof.
  assert (FindNextElementSibling (wrapNode firstLi) = Ret (wrapNode secondLi))
    as Hn by reflexivity.
  split; [exact Hn|].
  exact (proj1 (element_sibling_nearest firstLi) secondLi Hn).
Defined.

Lemma childPtrs_first_PrevSibling (n k : Ptr) :
  childPtrs n !! 0%nat = Some k -> PrevSibling k = None.
Proof.
  unfold childPtrs. destruct (here n) as [ty data attr [|x kids]]; simpl;
    [discriminate|].
  intros H; inversion H; reflexivity.
Qed.

Lemma childPtrs_PrevSibling (n : Ptr) (i : nat) (k : Ptr) :
  childPtrs n !! S i = Some k -> PrevSibling k = childPtrs n !! i.
Proof.
  intros Hk.
  destruct (childPtrs n !! i) as [j|] eqn:Hj.
  - apply NextSibling_PrevSibling.
    rewrite (childPtrs_NextSibling n i j Hj). exact Hk.
  - apply lookup_ge_None in Hj. apply lookup_lt_Some in Hk. lia.
Qed.

(** X10. [Children] returns the children of the node in order, one [Root]
    for each, labelled with the child's data: as many as the node has
    children, each one's [FindNextSibling] being the one after it and
    [FindPrevSibling] the one before it, with the no-sibling errors at the
    two ends, and each one's parent being the node. *)
Theorem Children_in_order (n : Ptr) :
  Children (wrapNode n) = Ret (map wrapNode (childPtrs n))
  /\ map here (childPtrs n) = nKids (here n)
  /\ head (childPtrs n) = FirstChild n
  /\ (forall (i : nat) c, childPtrs n !! i = Some c ->
        Parent c = Some n
        /\ FindNextSibling (wrapNode c)
           = Ret (match childPtrs n !! S i with
                  | Some c' => wrapNode c'
                  | None => wrapErrf "no next sibling found"
                  end)
        /\ FindPrevSibling (wrapNode c)
           = Ret (match i with
                  | O => wrapErrf "no previous sibling found"
                  | S j => match childPtrs n !! j with
                           | Some c' => wrapNode c'
                           | None => wrapErrf "no previous sibling found"
                           end
                  end)).
Proof.
  split; [reflexivity|].
  split; [apply childPtrs_here|]. split; [apply childPtrs_FirstChild|].
  intros i c Hc. split; [|split].
  - apply childPtrs_Parent. apply list_elem_of_In.
    eapply list_elem_of_lookup_2; eauto.
  - unfold FindNextSibling; simpl.
    rewrite (childPtrs_NextSibling n i c Hc).
    now destruct (childPtrs n !! S i).
  - unfold FindPrevSibling; simpl. destruct i as [|j].
    + now rewrite (childPtrs_first_PrevSibling n c Hc).
    + rewrite (childPtrs_PrevSibling n j c Hc).
      now destruct (childPtrs n !! j).
Qed.

Lemma Children_in_order_witness :
  childPtrs (mkPtr siblings Top) !! 3%nat = Some secondLi
  /\ Parent secondLi = Some (mkPtr siblings Top)
  /\ FindNextSibling (wrapNode secondLi) = Ret (wrapNode lastText).
Proof.
  assert (childPtrs (mkPtr siblings Top) !! 3%nat = Some secondLi) as H3
    by reflexivity.
  destruct (proj2 (proj2 (proj2 (Children_in_order (mkPtr siblings Top))))
              3%nat secondLi H3) as (Hp & Hn & _).
  split; [exact H3|]. split; [exact Hp|]. exact Hn.
Defined.

(** ** Text, from the children up *)

(** [fullText] only appends to the builder. *)
Lemma fullTextAt_append (t : Node) :
  forall s, fullTextAt s t = s +:+ fullTextAt EmptyString t.
Proof.
  induction t as [ty data attr kids IH] using Node_ind. intros s.
  cbn [fullTextAt]. destruct (isText ty); [reflexivity|].
  revert s. induction IH as [|k kids Hk _ IHkids]; intros s.
  - simpl. now rewrite append_empty_r.
  - cbn [fold_left]. rewrite IHkids, (IHkids (fullTextAt EmptyString k)), Hk.
    now rewrite append_assoc.
Qed.

Lemma fullTextAt_kids (kids : list Node) (s : string) :
  fold_left fullTextAt kids s
  = s +:+ joinAll (map (fullTextAt EmptyString) kids).
Proof.
  revert s. induction kids as [|k kids IH]; intros s; simpl.
  - now rewrite append_empty_r.
  - rewrite IH, fullTextAt_append. now rewrite append_assoc.
Qed.

Lemma Text_loop_joinAll (kids : list Ptr) (s : string) :
  fold_left (fun s k => if isText (Type_ k) then WriteString s (Data k) else s)
            kids s
  = s +:+ joinAll (map Data (List.filter (fun c => isText (Type_ c)) kids)).
Proof.
  revert s; induction kids as [|k kids IH]; intros s; simpl.
  - now rewrite append_empty_r.
  - rewrite IH. unfold WriteString.
    destruct (isText (Type_ k)); simpl; [|reflexivity].
    now rewrite append_assoc.
Qed.

Lemma isText_false (ty : NodeType) : ty <> TextNode -> isText ty = false.
Proof. destruct ty; simpl; congruence. Qed.

Lemma fullText_children (n : Ptr) :
  isText (Type_ n) = false ->
  fullText EmptyString n = joinAll (map (fullText EmptyString) (childPtrs n)).
Proof.
  intros Htext. unfold fullText.
  rewrite <- (List.map_map here (fullTextAt EmptyString)), childPtrs_here.
  unfold Type_ in Htext. destruct (here n) as [ty data attr kids]; simpl in *.
  rewrite Htext. now rewrite fullTextAt_kids.
Qed.

(** X11. On a node that is not a text node, [FullText] is the [FullText]
    of each child, one after the other in order, and [Text] is the data of
    the children that are text nodes, in order. *)
Theorem FullText_of_children (n : Ptr) :
  Type_ n <> TextNode ->
  exists texts : list string,
    Forall2 (fun c t => FullText (wrapNode c) = Ret t) (childPtrs n) texts
    /\ FullText (wrapNode n) = Ret (joinAll texts)
    /\ Text (wrapNode n)
       = Ret (joinAll (map Data (List.filter (fun c => isText (Type_ c))
                                             (childPtrs n)))).
Proof.
  intros Hty. apply isText_false in Hty.
  exists (map (fullText EmptyString) (childPtrs n)). split; [|split].
  - induction (childPtrs n) as [|c cs IH]; constructor; auto.
  - unfold FullText; simpl. now rewrite fullText_children.
  - unfold Text; simpl. rewrite Hty. now rewrite Text_loop_joinAll.
Qed.

Lemma FullText_of_children_witness :
  exists texts : list string,
    Forall2 (fun c t => FullText (wrapNode c) = Ret t)
            (childPtrs (mkPtr helloWorld Top)) texts
    /\ FullText (wrapNode (mkPtr helloWorld Top)) = Ret (joinAll texts)
    /\ Text (wrapNode (mkPtr helloWorld Top))
       = Ret (joinAll (map Data (List.filter (fun c => isText (Type_ c))
                                             (childPtrs (mkPtr helloWorld Top))))).
Proof.
  apply (FullText_of_children (mkPtr helloWorld Top)). discriminate.
Defined.

Lemma fullText_text (c : Ptr) :
  isText (Type_ c) = true -> fullText EmptyString c = Data c.
Proof.
  unfold fullText, Type_, Data. destruct (here c) as [ty data attr kids].
  cbn [nType nData fullTextAt]. now intros ->.
Qed.

(** X12. [Text] and [FullText] agree on a text node, and on any node whose
    children are all text nodes or have no children themselves. *)
Theorem Text_is_FullText (n : Ptr) :
  (Type_ n = TextNode \/
   forall c, In c (childPtrs n) -> Type_ c = TextNode \/ childPtrs c = []) ->
  Text (wrapNode n) = FullText (wrapNode n).
Proof.
  intros H. unfold Text, FullText; simpl.
  destruct (isText (Type_ n)) eqn:Htext.
  - now rewrite fullText_text.
  - destruct H as [H|H]; [rewrite H in Htext; discriminate|].
    rewrite Text_loop_joinAll, fullText_children by exact Htext.
    cbn [String.append]. f_equal.
    induction (childPtrs n) as [|c cs IH]; [reflexivity|].
    cbn [List.filter map joinAll fold_right].
    fold (joinAll (map (fullText EmptyString) cs)).
    rewrite <- IH by (intros c' Hc'; apply H; now right).
    destruct (isText (Type_ c)) eqn:Ht.
    + cbn [map joinAll fold_right]. now rewrite fullText_text.
    + destruct (H c ltac:(now left)) as [Hc|Hc];
        [rewrite Hc in Ht; discriminate|].
      now rewrite (fullText_children c Ht), Hc.
Qed.

Lemma Text_is_FullText_witness :
  Text (wrapNode secondLi) = FullText (wrapNode secondLi)
  /\ Text (wrapNode secondLi) = Ret "two".
Proof.
  split; [|reflexivity].
  apply Text_is_FullText. right. intros c Hc. left.
  destruct Hc as [<-|[]]. reflexivity.
Defined.

(** ** The attribute map *)

Lemma getKeyValue_snoc (attrs : list Attribute) (a : Attribute) :
  getKeyValue (attrs ++ [a]) = <[Key a := Val a]> (getKeyValue attrs).
Proof. unfold getKeyValue. now rewrite fold_left_app. Qed.

Lemma getKeyValue_is_Some (attrs : list Attribute) (k : string) :
  is_Some (getKeyValue attrs !! k) <-> exists a, In a attrs /\ Key a = k.
Proof.
  rewrite getKeyValue_lookup. split.
  - intros [v Hv].
    destruct (last (List.filter _ attrs)) as [a|] eqn:Hl; [|discriminate].
    apply last_Some in Hl as [l' Hl].
    assert (In a (List.filter (fun a => String.eqb (Key a) k) attrs)) as Hin
      by (rewrite Hl; apply in_or_app; right; now left).
    apply filter_In in Hin as [Hin Hk]. apply String.eqb_eq in Hk. eauto.
  - intros (a & Hin & Hk).
    assert (In a (List.filter (fun a => String.eqb (Key a) k) attrs)) as Hf
      by (apply filter_In; split; [exact Hin | now apply String.eqb_eq]).
    destruct (last (List.filter _ attrs)) as [b|] eqn:Hl; [now eexists|].
    apply last_None in Hl. rewrite Hl in Hf. destruct Hf.
Qed.

Lemma getKeyValue_size (attrs : list Attribute) :
  (size (getKeyValue attrs) <= length attrs)%nat.
Proof.
  induction attrs as [|a attrs IH] using rev_ind; [reflexivity|].
  rewrite getKeyValue_snoc, length_app. simpl.
  rewrite map_size_insert.
  destruct (getKeyValue attrs !! Key a); unfold id; lia.
Qed.

Lemma getKeyValue_NoDup (attrs : list Attribute) :
  NoDup (map Key attrs) ->
  size (getKeyValue attrs) = length attrs
  /\ forall a, In a attrs -> getKeyValue attrs !! Key a = Some (Val a).
Proof.
  induction attrs as [|a attrs IH] using rev_ind; intros Hnd.
  - split; [reflexivity | intros a []].
  - rewrite map_app in Hnd. apply NoDup_app in Hnd as (Hnd & Hfresh & _).
    destruct (IH Hnd) as [Hsize Hlook].
    assert (getKeyValue attrs !! Key a = None) as Hnone.
    { destruct (getKeyValue attrs !! Key a) as [v|] eqn:Hv; [|reflexivity].
      destruct (proj1 (getKeyValue_is_Some attrs (Key a)) (mk_is_Some _ _ Hv))
        as (b & Hb & Hk).
      exfalso. apply (Hfresh (Key a)).
      - apply list_elem_of_In. rewrite <- Hk. now apply in_map.
      - simpl. apply list_elem_of_In. now left. }
    rewrite getKeyValue_snoc, length_app. split.
    + rewrite map_size_insert, Hnone. simpl. lia.
    + intros b Hb. apply in_app_or in Hb as [Hb|[<-|[]]].
      * destruct (String.eqb_spec (Key a) (Key b)) as [Heq|Hne].
        -- rewrite Heq in Hnone. rewrite (Hlook b Hb) in Hnone. discriminate.
        -- rewrite lookup_insert_ne by exact Hne. now apply Hlook.
      * apply lookup_insert_eq.
Qed.

(** X13. On an element, the map returned by [Attrs] binds exactly the keys
    that occur among the attributes of the node, so it has at most as many
    entries as the node has attributes; when the keys of the attributes are
    distinct it has as many, and binds the key of every attribute to that
    attribute's value. *)
Theorem Attrs_keys (n : Ptr) :
  Type_ n = ElementNode ->
  exists m : gmap string string,
    Attrs (wrapNode n) = Ret (Some m)
    /\ (forall k, is_Some (m !! k) <-> exists a, In a (Attr n) /\ Key a = k)
    /\ (size m <= length (Attr n))%nat
    /\ (NoDup (map Key (Attr n)) ->
        size m = length (Attr n)
        /\ forall a, In a (Attr n) -> m !! Key a = Some (Val a)).
Proof.
  intros Hty. exists (getKeyValue (Attr n)). split; [|split; [|split]].
  - unfold Attrs; simpl. now rewrite Hty.
  - apply getKeyValue_is_Some.
  - apply getKeyValue_size.
  - apply getKeyValue_NoDup.
Qed.

Lemma Attrs_keys_witness :
  exists m : gmap string string,
    Attrs (wrapNode twoClasses) = Ret (Some m)
    /\ is_Some (m !! "id") /\ ~ is_Some (m !! "href")
    /\ (size m <= 3)%nat.
Proof.
  destruct (Attrs_keys twoClasses eq_refl) as (m & Hm & Hdom & Hsize & _).
  exists m. split; [exact Hm|]. split; [|split; [|exact Hsize]].
  - apply Hdom. exists (mkAttr "" "id" "i"). split; [|reflexivity].
    right; left; reflexivity.
  - intros H. apply Hdom in H as (a & Ha & Hk).
    destruct Ha as [<-|[<-|[<-|[]]]]; discriminate.
Defined.

(** ** What a found node looks like *)

Lemma satisfies_spec (strict : bool) (key val : string) (a : Attribute) :
  satisfies strict key val a = true
  <-> Key a = key /\ (if strict then Val a = val else wholeToken (Val a) val).
Proof.
  unfold satisfies. destruct strict.
  - unfold attributeAndValueEquals.
    rewrite andb_true_iff, !String.eqb_eq. tauto.
  - now rewrite attributeContainsValue_Fields, Fields_wholeToken.
Qed.

Lemma isTag_spec (tag : string) (p : Ptr) :
  isTag tag p = true <-> Type_ p = ElementNode /\ Data p = tag.
Proof.
  unfold isTag. now rewrite andb_true_iff, isElement_true, String.eqb_eq.
Qed.

(** X14. A node found by [Find] or [FindStrict] with a filter lies below
    the receiver, is an element labelled with the tag, and has an attribute
    with the key whose value is the filter value ([FindStrict]) or has it
    as one whole token ([Find]). When the keys of its attributes are
    distinct, [Attrs] on the result binds the key to such a value. *)
Theorem Find_result_attribute (strict : bool) (n p : Ptr)
    (tag key val : string) :
  FindWith strict (wrapNode n) [tag; key; val] = Ret (wrapNode p) ->
  below n p /\ Type_ p = ElementNode /\ Data p = tag
  /\ (exists a, In a (Attr p) /\ Key a = key
                /\ (if strict then Val a = val else wholeToken (Val a) val))
  /\ (NoDup (map Key (Attr p)) ->
      exists (m : gmap string string) (v : string),
        Attrs (wrapNode p) = Ret (Some m) /\ m !! key = Some v
        /\ (if strict then v = val else wholeToken v val)).
Proof.
  rewrite FindWith_three.
  destruct (List.find _ (descPtrs n)) as [q|] eqn:Hq; [|discriminate].
  intros H; inversion H; subst q. clear H.
  apply find_some in Hq as [Hin Hhit].
  apply descPtrs_below in Hin. unfold isTagWith in Hhit.
  apply andb_true_iff in Hhit as [Htag Hex].
  apply isTag_spec in Htag as [Hty Hdata].
  apply existsb_exists in Hex as (a & Ha & Hsat).
  apply satisfies_spec in Hsat as [Hk Hv].
  split; [exact Hin|]. split; [exact Hty|]. split; [exact Hdata|].
  split; [exists a; auto|].
  intros Hnd. exists (getKeyValue (Attr p)), (Val a). split; [|split].
  - unfold Attrs; simpl. now rewrite Hty.
  - rewrite <- Hk. now apply getKeyValue_NoDup.
  - exact Hv.
Qed.

Lemma Find_result_attribute_witness :
  exists a, In a (Attr (default (mkPtr linkWithClass Top)
                          (FirstChild (mkPtr linkWithClass Top))))
            /\ Key a = "class" /\ wholeToken (Val a) "x".
Proof.
  apply (proj1 (proj2 (proj2 (proj2
           (Find_result_attribute false (mkPtr linkWithClass Top)
              (default (mkPtr linkWithClass Top)
                 (FirstChild (mkPtr linkWithClass Top)))
              "a" "class" "x" eq_refl))))).
Defined.

(** ** Filter values that can never match loosely *)

(** An ASCII byte is always a rune of its own. *)
Lemma DecodeRuneInString_ascii (c0 : ascii) (s : string) (r : Z) (w : nat) :
  utf8.DecodeRuneInString (String c0 s) = (r, w) ->
  forall c, In c (bytes (strings.take w (String c0 s))) ->
            (utf8.byteZ c < 0x80)%Z -> r = utf8.byteZ c.
Proof.
  unfold utf8.DecodeRuneInString, utf8.first.
  destruct (Z.ltb_spec (utf8.byteZ c0) 0x80) as [Hlt|Hge].
  - cbn. intros Hdec; inversion Hdec; subst. simpl.
    intros c [<-|[]] _. reflexivity.
  - repeat match goal with
           | |- context [if (utf8.byteZ c0 <? ?b)%Z then _ else _] =>
               destruct (Z.ltb_spec (utf8.byteZ c0) b)
           | |- context [if (utf8.byteZ c0 =? ?b)%Z then _ else _] =>
               destruct (Z.eqb_spec (utf8.byteZ c0) b)
           end;
    unfold utf8.acceptRanges, utf8.as_, utf8.xx, utf8.s1, utf8.s2, utf8.s3,
      utf8.s4, utf8.s5, utf8.s6, utf8.s7, utf8.locb, utf8.hicb;
    repeat match goal with
           | |- context [Z.shiftr ?a 4] =>
               let v := eval vm_compute in (Z.shiftr a 4) in
               change (Z.shiftr a 4) with v
           | |- context [Z.land ?a 7] =>
               let v := eval vm_compute in (Z.land a 7) in
               change (Z.land a 7) with v
           end; cbn;
    repeat match goal with
           | |- context [match ?t with EmptyString => _ | String _ _ => _ end] =>
               destruct t; cbn
           | |- context [(?a <? ?b)%Z] => destruct (Z.ltb_spec a b); cbn
           end;
    intros Hdec; inversion Hdec; subst; cbn;
    intros c Hc Hc128;
    repeat (destruct Hc as [<-|Hc]; [lia|]);
    destruct Hc.
Qed.

Lemma runesLoop_shape (fuel : nat) (s : string) (x : Z * string) :
  In x (runesLoop fuel s) ->
  snd x <> EmptyString
  /\ forall c, In c (bytes (snd x)) -> (utf8.byteZ c < 0x80)%Z ->
               fst x = utf8.byteZ c.
Proof.
  revert s; induction fuel as [|fuel IH]; intros s; [intros []|].
  destruct s as [|c0 s]; [intros []|]. cbn [runesLoop].
  destruct (utf8.DecodeRuneInString (String c0 s)) as [r w] eqn:Hd.
  intros [<-|Hin]; [|now apply IH in Hin]. cbn [fst snd]. split.
  - apply DecodeRuneInString_width in Hd. destruct w as [|w]; [lia|].
    discriminate.
  - now apply DecodeRuneInString_ascii.
Qed.

Lemma bytes_app (s1 s2 : string) : bytes (s1 +:+ s2) = bytes s1 ++ bytes s2.
Proof.
  induction s1 as [|c s1 IH]; [reflexivity|].
  change (c :: bytes (s1 +:+ s2) = c :: bytes s1 ++ bytes s2). now rewrite IH.
Qed.

Lemma encoding_bytes (rs : list (Z * string)) (c : ascii) :
  In c (bytes (encoding rs)) -> exists x, In x rs /\ In c (bytes (snd x)).
Proof.
  induction rs as [|x rs IH]; [intros []|].
  cbn [encoding fold_right]. fold (encoding rs). rewrite bytes_app.
  intros H. apply in_app_or in H as [H|H].
  - exists x. split; [now left | exact H].
  - destruct (IH H) as (y & Hy & Hc). exists y. split; [now right | exact Hc].
Qed.

Lemma wholeToken_shape (s val : string) :
  wholeToken s val ->
  val <> EmptyString /\ forall c, In c (bytes val) -> asciiSpace c = false.
Proof.
  intros (pre & mid & post & Hrs & Hmid & -> & Hns & _).
  assert (forall x, In x mid -> In x (runes s)) as Hsub.
  { intros x Hx. rewrite Hrs. apply in_or_app. right.
    apply in_or_app. now left. }
  split.
  - destruct mid as [|x mid]; [congruence|].
    destruct (runesLoop_shape _ s x (Hsub x ltac:(now left))) as [Hne _].
    cbn [encoding fold_right]. destruct (snd x); [congruence | discriminate].
  - intros c Hc. apply encoding_bytes in Hc as (x & Hx & Hc).
    unfold asciiSpace. destruct (Z.ltb_spec (utf8.byteZ c) 0x80) as [Hlt|];
      [|reflexivity].
    destruct (runesLoop_shape _ s x (Hsub x Hx)) as [_ Hascii].
    rewrite <- (Hascii c Hc Hlt). simpl.
    unfold noSpace in Hns. rewrite List.Forall_forall in Hns.
    exact (Hns x Hx).
Qed.

(** X15. In loose mode a filter value that is empty, or that holds an
    ASCII white space byte, is satisfied by no attribute: so [Find] with
    the value ["a b"] does not match [class="a b"], which [FindStrict]
    matches. *)
Theorem loose_value_one_token (attr : Attribute) (key val : string) :
  val = EmptyString \/ (exists c, In c (bytes val) /\ asciiSpace c = true) ->
  attributeContainsValue attr key val = false.
Proof.
  intros Hbad.
  destruct (attributeContainsValue attr key val) eqn:Hm; [|reflexivity].
  apply attributeContainsValue_Fields in Hm as [_ Hin].
  apply Fields_wholeToken, wholeToken_shape in Hin as [Hne Hsp].
  destruct Hbad as [->|(c & Hc & Hspace)]; [congruence|].
  rewrite (Hsp c Hc) in Hspace. discriminate.
Qed.

Lemma loose_value_one_token_witness :
  attributeContainsValue (mkAttr "" "class" "a b") "class" "a b" = false
  /\ attributeAndValueEquals (mkAttr "" "class" "a b") "class" "a b" = true.
Proof.
  split; [|reflexivity].
  apply loose_value_one_token. right. exists " "%char. split.
  - right; left; reflexivity.
  - reflexivity.
Defined.

(** ** Strict and loose searches *)

Lemma satisfies_strict_loose (key val : string) (a : Attribute) :
  strings.Fields val = [val] ->
  satisfies true key val a = true -> satisfies false key val a = true.
Proof.
  intros Hone Hs. apply satisfies_spec in Hs as [Hk Hv].
  unfold satisfies. apply attributeContainsValue_Fields. split; [exact Hk|].
  rewrite Hv, Hone. now left.
Qed.

Lemma in_flat_map_repeat {A : Type} (c : A -> nat) (l : list A) (x : A) :
  In x (flat_map (fun p => List.repeat p (c p)) l)
  <-> In x l /\ (0 < c x)%nat.
Proof.
  rewrite in_flat_map. split.
  - intros (p & Hp & Hx). apply repeat_spec in Hx as Heq. subst p.
    split; [exact Hp|]. destruct (c x); [destruct Hx | lia].
  - intros [Hx Hc]. exists x. split; [exact Hx|].
    destruct (c x) as [|k]; [lia | now left].
Qed.

(** X16. When the filter value is a single field ([strings.Fields] of it
    is the value alone), strict matches are loose matches: every node in
    the slice of [FindAllStrict] is in the slice of [FindAll], and when
    [FindStrict] finds a node [Find] finds one too. *)
Theorem strict_results_are_loose (n : Ptr) (tag key val : string) :
  strings.Fields val = [val] ->
  (forall rs, FindAllStrict (wrapNode n) [tag; key; val] = Ret rs ->
     exists rl, FindAll (wrapNode n) [tag; key; val] = Ret rl
                /\ forall r, In r rs -> In r rl)
  /\ (forall p, FindStrict (wrapNode n) [tag; key; val] = Ret (wrapNode p) ->
        exists q, Find (wrapNode n) [tag; key; val] = Ret (wrapNode q)).
Proof.
  intros Hone.
  assert (forall p, (0 < hits true key val p)%nat ->
                    (0 < hits false key val p)%nat) as Hhits.
  { intros p. unfold hits.
    induction (Attr p) as [|a attrs IH]; cbn [List.filter length]; [lia|].
    destruct (satisfies true key val a) eqn:Hs.
    - rewrite (satisfies_strict_loose key val a Hone Hs).
      cbn [length]. lia.
    - intros H. apply IH in H.
      destruct (satisfies false key val a); cbn [length]; lia. }
  split.
  - intros rs Hrs.
    pose proof (FindAllWith_three true n tag key val) as HS.
    pose proof (FindAllWith_three false n tag key val) as HL.
    cbn [FindAllWith] in HS, HL. rewrite HS in Hrs. inversion Hrs; subst rs.
    eexists. split; [exact HL|].
    intros r Hr. apply in_map_iff in Hr as (p & <- & Hp). apply in_map.
    apply (in_flat_map_repeat
             (fun p => if hasLabel tag p then hits true key val p else 0%nat))
      in Hp as [Hp Hc].
    apply (in_flat_map_repeat
             (fun p => if hasLabel tag p then hits false key val p else 0%nat)).
    split; [exact Hp|]. destruct (hasLabel tag p); [now apply Hhits | lia].
  - intros p Hp.
    pose proof (FindWith_three true n tag key val) as HS.
    pose proof (FindWith_three false n tag key val) as HL.
    cbn [FindWith] in HS, HL. rewrite HS in Hp. rewrite HL.
    destruct (List.find (isTagWith true tag key val) (descPtrs n)) as [p'|] eqn:Hf;
      [|discriminate].
    apply find_some in Hf as [Hin Hhit].
    destruct (List.find (isTagWith false tag key val) (descPtrs n)) as [q|] eqn:Hq;
      [now exists q|].
    exfalso. apply (find_none _ _ Hq) in Hin.
    unfold isTagWith in *. apply andb_true_iff in Hhit as [Htag Hex].
    rewrite Htag in Hin. simpl in Hin.
    apply existsb_exists in Hex as (a & Ha & Hs).
    apply (satisfies_strict_loose key val a Hone) in Hs.
    assert (existsb (satisfies false key val) (Attr p') = true) as Hl
      by (apply existsb_exists; eauto).
    congruence.
Qed.

Lemma strict_results_are_loose_witness :
  strings.Fields "x" = ["x"]
  /\ exists q, Find (wrapNode (mkPtr twiceClass Top)) ["a"; "class"; "x"]
               = Ret (wrapNode q).
Proof.
  assert (strings.Fields "x" = ["x"]) as Hone by (vm_compute; reflexivity).
  split; [exact Hone|].
  apply (proj2 (strict_results_are_loose (mkPtr twiceClass Top)
                  "a" "class" "x" Hone) twiceClassLink).
  vm_compute. reflexivity.
Defined.

(** ** [HTMLParse] *)

(** Over [len] doctypes and comments the loop of [HTMLParse] takes [len]
    turns and goes on from the node after them. *)
Lemma skipToElement_chain (n : Ptr) (len : nat) :
  (forall j k, (j < len)%nat -> childPtrs n !! j = Some k -> skippable k) ->
  (len <= length (childPtrs n))%nat ->
  forall m i fuel, (i + m = len)%nat ->
    skipToElement fuel (childPtrs n !! i)
    = if (fuel <=? m)%nat then None
      else skipToElement (fuel - m) (childPtrs n !! len).
Proof.
  intros Hskip Hlen. induction m as [|m IH]; intros i fuel Him.
  - replace i with len by lia. rewrite Nat.sub_0_r.
    destruct fuel; reflexivity.
  - destruct fuel as [|fuel]; [reflexivity|].
    destruct (childPtrs n !! i) as [k|] eqn:Hk;
      [|apply lookup_ge_None in Hk; lia].
    cbn [skipToElement].
    rewrite (childPtrs_NextSibling n i k Hk).
    assert (skippable k) as Hsk by (apply (Hskip i k); [lia | exact Hk]).
    rewrite (IH (S i) fuel ltac:(lia)).
    change (S fuel <=? S m)%nat with (fuel <=? m)%nat.
    change (S fuel - S m)%nat with (fuel - m)%nat.
    destruct Hsk as [Hty|Hty]; rewrite Hty; reflexivity.
Qed.

Lemma lookup_prefix_skippable (l pre rest : list Ptr) :
  l = pre ++ rest -> Forall skippable pre ->
  forall j k, (j < length pre)%nat -> l !! j = Some k -> skippable k.
Proof.
  intros -> Hpre j k Hj Hk. rewrite lookup_app_l in Hk by exact Hj.
  rewrite List.Forall_forall in Hpre. apply Hpre.
  apply list_elem_of_In. eapply list_elem_of_lookup_2; eauto.
Qed.

(** X17. [HTMLParse] returns the error "unable to parse the HTML" when
    the parser fails. On a parsed document whose root is a document node
    with, among its children, an element preceded only by doctypes and
    comments, it returns that element, after finitely many turns of its
    loop. *)
Theorem HTMLParse_first_element (Parse : string -> option Ptr) (s : string) :
  (Parse s = None ->
   forall fuel, HTMLParse Parse fuel s
                = Some (Ret (wrapErrf "unable to parse the HTML")))
  /\ (forall d pre e rest,
        Parse s = Some d -> Type_ d = DocumentNode ->
        childPtrs d = pre ++ e :: rest -> Forall skippable pre ->
        Type_ e = ElementNode ->
        forall fuel, (length pre + 2 <= fuel)%nat ->
          HTMLParse Parse fuel s = Some (Ret (wrapNode e))).
Proof.
  split.
  - intros Hp fuel. unfold HTMLParse. now rewrite Hp.
  - intros d pre e rest Hp Hd Hkids Hpre He fuel Hfuel.
    unfold HTMLParse. rewrite Hp.
    destruct fuel as [|fuel]; [lia|]. cbn [skipToElement]. rewrite Hd.
    cbn [isElement NodeType_eqb negb].
    rewrite <- childPtrs_FirstChild, head_lookup.
    rewrite (skipToElement_chain d (length pre)
               (lookup_prefix_skippable _ pre (e :: rest) Hkids Hpre)
               ltac:(rewrite Hkids, length_app; lia)
               (length pre) 0%nat fuel eq_refl).
    destruct (Nat.leb_spec fuel (length pre)); [lia|].
    rewrite Hkids, list_lookup_middle by reflexivity.
    destruct (fuel - length pre)%nat as [|f] eqn:Hf; [lia|].
    cbn [skipToElement]. apply isElement_true in He. now rewrite He.
Qed.

Lemma HTMLParse_first_element_witness :
  HTMLParse (fun _ => Some (mkPtr parsedPage Top)) 4 "<!DOCTYPE html>..."
  = Some (Ret (wrapNode parsedHtml)).
Proof.
  apply (proj2 (HTMLParse_first_element (fun _ => Some (mkPtr parsedPage Top))
                  "<!DOCTYPE html>...")
           (mkPtr parsedPage Top)
           [default (mkPtr parsedPage Top) (childPtrs (mkPtr parsedPage Top) !! 0%nat);
            default (mkPtr parsedPage Top) (childPtrs (mkPtr parsedPage Top) !! 1%nat)]
           parsedHtml []);
    try reflexivity.
  constructor; [left; reflexivity|].
  constructor; [right; reflexivity|]. constructor.
Defined.

(** ** Each node once *)

Lemma siblingsFrom_trail before ty data attr up after (i : nat) (k : Ptr) :
  siblingsFrom before ty data attr up after !! i = Some k ->
  trailUp (around k) = (length before + i)%nat :: trailUp up.
Proof.
  revert before i; induction after as [|a after IH]; intros before [|i] H;
    simpl in *; try discriminate.
  - inversion H; subst k. simpl. now rewrite Nat.add_0_r.
  - apply IH in H. rewrite H. simpl. f_equal. lia.
Qed.

Lemma childPtrs_trail (n : Ptr) (i : nat) (k : Ptr) :
  childPtrs n !! i = Some k -> trailUp (around k) = i :: trailUp (around n).
Proof.
  unfold childPtrs. destruct (here n) as [ty data attr kids].
  intros H. now apply siblingsFrom_trail in H.
Qed.

Lemma preorderPtrs_trail (k z : Ptr) :
  In z (preorderPtrs k) ->
  exists rel, trailUp (around z) = rel ++ trailUp (around k).
Proof.
  rewrite preorderPtrs_unfold. intros [<-|Hz]; [now exists []|].
  apply descPtrs_below in Hz.
  induction Hz as [n c Hc | n c p Hc _ IH].
  - apply list_elem_of_In, list_elem_of_lookup in Hc as [i Hi].
    exists [i]. now rewrite (childPtrs_trail n i c Hi).
  - apply list_elem_of_In, list_elem_of_lookup in Hc as [i Hi].
    destruct IH as [rel Hrel]. exists (rel ++ [i]).
    rewrite Hrel, (childPtrs_trail n i c Hi). now rewrite <- app_assoc.
Qed.

Lemma NoDup_flat_map_indexed {A B : Type} (f : A -> list B) (l : list A) :
  (forall x, In x l -> NoDup (f x)) ->
  (forall (i j : nat) x y z, l !! i = Some x -> l !! j = Some y ->
     In z (f x) -> In z (f y) -> i = j) ->
  NoDup (flat_map f l).
Proof.
  induction l as [|a l IH]; intros Hnd Hdisj; [constructor|].
  cbn [flat_map]. apply NoDup_app. split; [|split].
  - apply Hnd. now left.
  - intros z Hz Hz'. apply list_elem_of_In in Hz, Hz'.
    apply in_flat_map in Hz' as (y & Hy & Hzy).
    apply list_elem_of_In, list_elem_of_lookup in Hy as [j Hj].
    specialize (Hdisj 0%nat (S j) a y z eq_refl Hj Hz Hzy). discriminate.
  - apply IH.
    + intros x Hx. apply Hnd. now right.
    + intros i j x y z Hi Hj Hx Hy.
      specialize (Hdisj (S i) (S j) x y z Hi Hj Hx Hy). lia.
Qed.

(** Distinct places in the document are distinct pointers. *)
Lemma preorderPtrs_NoDup (n : Ptr) : NoDup (preorderPtrs n).
Proof.
  induction n as [n IH] using Ptr_children_ind.
  rewrite preorderPtrs_unfold. apply NoDup_cons. split.
  - intros Hin. apply list_elem_of_In, descPtrs_below in Hin.
    now apply below_irrefl in Hin.
  - unfold descPtrs. apply NoDup_flat_map_indexed.
    + intros k Hk. rewrite List.Forall_forall in IH. now apply IH.
    + intros i j x y z Hi Hj Hx Hy.
      apply preorderPtrs_trail in Hx as [rx Hx].
      apply preorderPtrs_trail in Hy as [ry Hy].
      rewrite (childPtrs_trail n i x Hi) in Hx.
      rewrite (childPtrs_trail n j y Hj) in Hy.
      rewrite Hx in Hy. apply app_inj_2 in Hy as [_ Hy]; [|reflexivity].
      now inversion Hy.
Qed.

Lemma descPtrs_NoDup (n : Ptr) : NoDup (descPtrs n).
Proof.
  pose proof (preorderPtrs_NoDup n) as H. rewrite preorderPtrs_unfold in H.
  now apply NoDup_cons in H as [_ H].
Qed.

Lemma NoDup_List_filter {A : Type} (f : A -> bool) (l : list A) :
  NoDup l -> NoDup (List.filter f l).
Proof.
  induction l as [|x l IH]; intros Hnd; [constructor|].
  apply NoDup_cons in Hnd as [Hx Hnd]. cbn [List.filter].
  destruct (f x); [|now apply IH].
  apply NoDup_cons. split; [|now apply IH].
  intros Hin. apply Hx. apply list_elem_of_In in Hin.
  apply filter_In in Hin as [Hin _]. now apply list_elem_of_In.
Qed.

(** X19. With a tag and no filter, the slice returned by [FindAll] and
    [FindAllStrict] holds no node twice. *)
Theorem FindAll_tag_once (strict : bool) (n : Ptr) (tag : string)
    (rs : list Root) :
  FindAllWith strict (wrapNode n) [tag] = Ret rs -> NoDup rs.
Proof.
  rewrite FindAllWith_one. intros H; inversion H; subst rs.
  apply NoDup_fmap_2_strong.
  - intros p q _ _ Hpq. now inversion Hpq.
  - apply NoDup_List_filter. apply descPtrs_NoDup.
Qed.

Lemma FindAll_tag_once_witness :
  NoDup [wrapNode twiceClassLink].
Proof.
  apply (FindAll_tag_once false (mkPtr twiceClass Top) "a"). reflexivity.
Defined.
